(** * Workflow graph validation of [register_workflow.py]

    A shallow embedding of the graph core of [src/register_workflow.py]
    ([extract_rank], [build_adjacency_graph], [is_cyclic],
    [predecessors_list], [check_dag]) and of [get_openwhisk_credentials],
    with the properties of them that the specification states and further
    properties read off the code.

    Modelling conventions.
    - A Python [str] is a [string]; the builtins [str.split], [str.endswith],
      the slice [s[:-1]], [int(s)] and [str(i)] are modelled in [Module Py]
      for ASCII text.
    - A Python [int] is a [Z].
    - A Python [dict] is an association list in insertion order whose keys
      are pairwise distinct; [d[k] = v] keeps the position of a key that is
      already present and appends a new one.  A [defaultdict(list)] inserts
      the key with an empty list when a missing key is read.  A loop
      [for k in d: ... d[k] ...] over a dictionary that the loop does not
      change is a loop over the entries of the list.
    - The workflow definition is decoded JSON of the documented shape:
      [InvokeNext] is a string or a list whose elements are strings or maps
      from a branch label to a list of strings.
    - A Python [set] of names is a [gset string].
    - [sys.exit(1)] after [logger.error(msg)] is an error result named after
      the message; an uncaught Python exception is an error result named
      after the exception.
    - [is_cyclic] is recursive on a mutable graph, so the model takes a
      recursion budget; [check_dag] supplies a budget that is proved to be
      sufficient.  The interpreter's own resource limits (recursion depth,
      the optional cap on the number of digits [int] accepts) are not
      modelled. *)

From Stdlib Require Import String Ascii ZArith List Lia DecimalString.
From Stdlib Require DecimalPos DecimalZ.
From stdpp Require Import base decidable option list relations strings gmap.

Open Scope string_scope.
Open Scope list_scope.

(** ** Outcomes *)

(** The ways in which validation stops early.  The first five are the
    [logger.error] / [sys.exit(1)] sites of the source, named as the
    specification names them; the last two are the exceptions that the code
    can raise and does not catch ([main] handles [SystemExit] only). *)
Inductive error : Type :=
  | InvalidEntryPoint
      (* "FunctionInvoke does not refer to a valid function" *)
  | AmbiguousRankedPredecessor
      (* "Function with rank cannot have multiple predecessors" *)
  | NoRoot
      (* "Function loop found: no initial action" *)
  | CyclicGraph (curr child : string)
      (* "Function loop found from node {curr} to {child}" *)
  | UnreachableAction (func : string)
      (* "Unreachable state found: {func}" *)
  | ValueError (literal : string)
      (* int(): invalid literal for int() with base 10 *)
  | KeyError (key : string).
      (* subscript of a plain dict with a missing key *)

Inductive result (A : Type) : Type :=
  | Return (a : A)
  | Raise (e : error).
Arguments Return {A} a.
Arguments Raise {A} e.

#[global] Instance result_ret : MRet result := @Return.
#[global] Instance result_bind : MBind result := fun A B f m =>
  match m with
  | Return a => f a
  | Raise e => Raise e
  end.

(** A [for] loop whose body may stop the program. *)
Fixpoint for_each {A S : Type} (body : A -> S -> result S) (l : list A) (s : S)
  : result S :=
  match l with
  | [] => Return s
  | x :: l' => s' ← body x s; for_each body l' s'
  end.

(** ** Python string builtins *)

Module Py.

(** [s.split(sep)] for a one-character separator. *)
Fixpoint split (sep : ascii) (s : string) : list string :=
  match s with
  | EmptyString => [EmptyString]
  | String c s' =>
      if Ascii.eqb c sep then EmptyString :: split sep s'
      else match split sep s' with
           | [] => [String c EmptyString]
           | part :: parts => String c part :: parts
           end
  end.

(** [s.endswith(c)] for a one-character suffix. *)
Fixpoint endswith (s : string) (c : ascii) : bool :=
  match s with
  | EmptyString => false
  | String a EmptyString => Ascii.eqb a c
  | String _ s' => endswith s' c
  end.

(** The slice [s[:-1]]. *)
Fixpoint drop_last (s : string) : string :=
  match s with
  | EmptyString => EmptyString
  | String _ EmptyString => EmptyString
  | String a s' => String a (drop_last s')
  end.

(** Number of occurrences of a character, [s.count(c)]. *)
Fixpoint count (c : ascii) (s : string) : nat :=
  match s with
  | EmptyString => 0
  | String a s' => (if Ascii.eqb a c then 1 else 0) + count c s'
  end.

(** Whitespace that [int] skips: tab, line feed, vertical tab, form feed,
    carriage return and space. *)
Definition is_space (c : ascii) : bool :=
  let n := nat_of_ascii c in
  ((9 <=? n)%nat && (n <=? 13)%nat) || (n =? 32)%nat.

Fixpoint lstrip (s : string) : string :=
  match s with
  | EmptyString => EmptyString
  | String c s' => if is_space c then lstrip s' else s
  end.

Fixpoint all_space (s : string) : bool :=
  match s with
  | EmptyString => true
  | String c s' => is_space c && all_space s'
  end.

Definition digit (c : ascii) : option (Decimal.uint -> Decimal.uint) :=
  match c with
  | "0" => Some Decimal.D0 | "1" => Some Decimal.D1
  | "2" => Some Decimal.D2 | "3" => Some Decimal.D3
  | "4" => Some Decimal.D4 | "5" => Some Decimal.D5
  | "6" => Some Decimal.D6 | "7" => Some Decimal.D7
  | "8" => Some Decimal.D8 | "9" => Some Decimal.D9
  | _ => None
  end%char.

(** The digits of a base-10 literal: at least one digit, single
    underscores allowed between digits, then only whitespace. *)
Fixpoint numeral (s : string) : option Decimal.uint :=
  match s with
  | EmptyString => None
  | String c s' =>
      match digit c with
      | None => None
      | Some d =>
          match s' with
          | EmptyString => Some (d Decimal.Nil)
          | String c' s'' =>
              if Ascii.eqb c' "_" then option_map d (numeral s'')
              else if is_space c' then
                if all_space s' then Some (d Decimal.Nil) else None
              else option_map d (numeral s')
          end
      end
  end.

(** [int(s)] in base 10: optional whitespace, an optional sign, the
    numeral, optional whitespace.  [None] stands for [ValueError]. *)
Definition int (s : string) : option Z :=
  match lstrip s with
  | String "+" r => option_map Z.of_uint (numeral r)
  | String "-" r => option_map (fun u => - Z.of_uint u)%Z (numeral r)
  | t => option_map Z.of_uint (numeral t)
  end.

(** [str(i)] for an integer. *)
Definition str (i : Z) : string := NilZero.string_of_int (Z.to_int i).

End Py.

(** A string that begins with a decimal digit. *)
Definition starts_with_digit (s : string) : Prop :=
  match s with
  | EmptyString => False
  | String c _ => is_Some (Py.digit c) /\ Py.is_space c = false /\ c <> "_"%char
  end.

(** The reference [name(z)]. *)
Definition ranked_reference (name : string) (z : Z) : string :=
  name +:+ "(" +:+ Py.str z +:+ ")".

(** ** [extract_rank] *)

Definition extract_rank (str_input : string) : result (string * Z) :=
  match Py.split "(" str_input with
  | [part0; part1] =>
      if negb (Py.endswith part1 ")") then Return (str_input, 1%Z)
      else
        match Py.int (Py.drop_last part1) with
        | None => Raise (ValueError (Py.drop_last part1))
        | Some rank => Return (part0, rank)
        end
  | _ => Return (str_input, 1%Z)
  end.

(** ** Dictionaries *)

Section dict.
Context {V : Type}.

(** [d.get(k)]; [None] when [k not in d]. *)
Fixpoint dict_get (k : string) (d : list (string * V)) : option V :=
  match d with
  | [] => None
  | (k', v) :: d' => if decide (k = k') then Some v else dict_get k d'
  end.

(** [d[k] = v]. *)
Fixpoint dict_set (k : string) (v : V) (d : list (string * V))
  : list (string * V) :=
  match d with
  | [] => [(k, v)]
  | (k', v') :: d' =>
      if decide (k = k') then (k', v) :: d' else (k', v') :: dict_set k v d'
  end.

(** [k in d]. *)
Definition dict_mem (k : string) (d : list (string * V)) : bool :=
  bool_decide (is_Some (dict_get k d)).

(** The keys in iteration order. *)
Definition dict_keys (d : list (string * V)) : list string := d.*1.
End dict.

(** The adjacency graph is a [defaultdict(list)]: predecessor name to the
    list of successor base names.  The rank table is a plain [dict]. *)
Abbreviation graph := (list (string * list string)).
Abbreviation rank_table := (list (string * Z)).

(** Reading [adj_graph[k]]: a missing key is inserted with an empty list. *)
Definition defaultdict_get (k : string) (d : graph) : list string * graph :=
  match dict_get k d with
  | Some l => (l, d)
  | None => ([], dict_set k [] d)
  end.

(** [adj_graph[k].append(x)]. *)
Definition defaultdict_append (k x : string) (d : graph) : graph :=
  let '(l, d') := defaultdict_get k d in dict_set k (l ++ [x]) d'.

(** The successors of a node as the traversal reads them. *)
Definition successors (adj_graph : graph) (x : string) : list string :=
  default [] (dict_get x adj_graph).

(** [name in ranks and ranks[name] > 1]. *)
Definition rank_gt_1 (name : string) (ranks : rank_table) : bool :=
  match dict_get name ranks with
  | Some r => bool_decide (1 < r)%Z
  | None => false
  end.

(** ** The workflow definition *)

(** An element of an [InvokeNext] list: a successor reference, or a
    conditional map from a branch label to a list of references. *)
Inductive invoke_entry : Type :=
  | Ref (reference : string)
  | Conditional (branches : list (string * list string)).

(** [InvokeNext] is a single reference or a list of entries. *)
Inductive invoke_next : Type :=
  | NextStr (reference : string)
  | NextList (entries : list invoke_entry).

(** Of an action only [InvokeNext] is read by validation. *)
Record action : Type := { InvokeNext : invoke_next }.

Record payload : Type := {
  ActionList : list (string * action);
  FunctionInvoke : string
}.

(** The workflow definition is decoded JSON: the keys of [ActionList] are
    pairwise distinct. *)
Definition payload_wf (p : payload) : Prop := NoDup (dict_keys (ActionList p)).

(** ** [build_adjacency_graph] *)

(** The inner function [process_action] of the source, closed over [func],
    [adj_graph] and [ranks]. *)
Definition process_action (func action : string) (st : graph * rank_table)
  : result (graph * rank_table) :=
  let '(adj_graph, ranks) := st in
  '(action_name, action_rank) ← extract_rank action;
  if rank_gt_1 action_name ranks then Raise AmbiguousRankedPredecessor
  else Return (defaultdict_append func action_name adj_graph,
               dict_set action_name action_rank ranks).

(** The body of [for child in invoke_next]. *)
Definition process_child (func : string) (child : invoke_entry)
  : graph * rank_table -> result (graph * rank_table) :=
  match child with
  | Conditional branches =>
      for_each (fun conditional_branch =>
                  for_each (process_action func) conditional_branch)
               branches.*2
  | Ref reference => process_action func reference
  end.

(** [if isinstance(invoke_next, str): invoke_next = [invoke_next]]. *)
Definition as_list (invoke_next : invoke_next) : list invoke_entry :=
  match invoke_next with
  | NextStr reference => [Ref reference]
  | NextList entries => entries
  end.

(** The last loop of the source: every key of the adjacency graph that
    has no rank gets rank 0. *)
Definition default_ranks (adj_graph : graph) (ranks : rank_table) : rank_table :=
  fold_left (fun ranks func =>
               if dict_mem func ranks then ranks else dict_set func 0%Z ranks)
            (dict_keys adj_graph) ranks.

Definition build_adjacency_graph (p : payload) : result (graph * rank_table) :=
  '(adj_graph, ranks) ←
    for_each (fun '(func, act) =>
                for_each (process_child func) (as_list (InvokeNext act)))
             (ActionList p) ([], []);
  Return (adj_graph, default_ranks adj_graph ranks).

(** ** [is_cyclic] *)

(** The mutable objects of the traversal: the adjacency graph, the
    [visited] set and the recursion [stack]. *)
Definition dfs_state : Type := graph * gset string * list string.

(** The [for child in adj_graph[curr]] loop, with the recursive call as a
    parameter.  [None] means that the recursion budget ran out. *)
Fixpoint visit_children
    (is_cyclic : string -> dfs_state -> option (result (bool * dfs_state)))
    (curr : string) (children : list string) (st : dfs_state)
  : option (result dfs_state) :=
  match children with
  | [] => Some (Return st)
  | child :: rest =>
      let '(_, visited, stack) := st in
      if bool_decide (child ∉ visited) then
        match is_cyclic child st with
        | None => None
        | Some (Raise e) => Some (Raise e)
        | Some (Return (true, _)) => Some (Raise (CyclicGraph curr child))
        | Some (Return (false, st')) =>
            if bool_decide (child ∈ st'.2) then
              Some (Raise (CyclicGraph curr child))
            else visit_children is_cyclic curr rest st'
        end
      else if bool_decide (child ∈ stack) then
        Some (Raise (CyclicGraph curr child))
      else visit_children is_cyclic curr rest st
  end.

Fixpoint is_cyclic (budget : nat) (curr : string) (st : dfs_state)
  : option (result (bool * dfs_state)) :=
  match budget with
  | O => None
  | S budget' =>
      let '(adj_graph, visited, stack) := st in
      if bool_decide (curr ∈ stack) then Some (Return (true, st))
      else
        let visited := visited ∪ {[curr]} in
        let stack := stack ++ [curr] in
        let '(children, adj_graph) := defaultdict_get curr adj_graph in
        match visit_children (is_cyclic budget') curr children
                             (adj_graph, visited, stack) with
        | None => None
        | Some (Raise e) => Some (Raise e)
        | Some (Return (adj_graph, visited, stack)) =>
            Some (Return (false, (adj_graph, visited, removelast stack)))
        end
  end.

(** ** [predecessors_list] *)

Definition predecessors_list (adj_graph : graph) : graph :=
  fold_left (fun pre '(func1, succs) =>
               fold_left (fun pre func2 => defaultdict_append func2 func1 pre)
                         succs pre)
            adj_graph [].

(** ** [check_dag] *)

(** The root-selection loop: [Some func] is [first_func] with [start] set,
    [None] is [start is False]. *)
Fixpoint find_first_func (funcs : list string) (ranks : rank_table)
  : result (option string) :=
  match funcs with
  | [] => Return None
  | func :: rest =>
      match dict_get func ranks with
      | None => Raise (KeyError func)
      | Some r =>
          if bool_decide (r = 0%Z) then Return (Some func)
          else find_first_func rest ranks
      end
  end.

(** [func.split(".")[0]]. *)
Definition dot_prefix (func : string) : string :=
  hd EmptyString (Py.split "." func).

(** The loop that reports the first action the traversal did not visit. *)
Definition check_visited (funcs : list string) (visited : gset string)
  : result unit :=
  for_each (fun func _ =>
              if bool_decide (dot_prefix func ∉ visited)
              then Raise (UnreachableAction func) else Return tt)
           funcs tt.

(** The identifiers that stand for one predecessor [p]. *)
Definition expand (ranks : rank_table) (p : string) : list string :=
  if rank_gt_1 p ranks then
    map (fun i => p +:+ "." +:+ Py.str (Z.of_nat i))
        (seq 1 (Z.to_nat (default 0%Z (dict_get p ranks))))
  else [p].

(** The final loop of [check_dag]. *)
Definition real_pre (ranks : rank_table) (curr_pre : list string) : list string :=
  fold_left (fun real_pre p => real_pre ++ expand ranks p) curr_pre [].

(** The names that can appear on the recursion stack: the root, the keys
    of the graph and the successors listed in it. *)
Definition graph_names (adj_graph : graph) (first_func : string) : list string :=
  first_func :: dict_keys adj_graph ++ concat adj_graph.*2.

(** The budget of the traversal: one more than the number of those names.
    The stack never repeats a name, so the recursion is never deeper
    ([check_dag_terminates]). *)
Definition recursion_budget (adj_graph : graph) (first_func : string) : nat :=
  S (length (graph_names adj_graph first_func)).

(** The call [is_cyclic(adj_graph, first_func, visited, stack)] of
    [check_dag], with [visited = set()] and [stack = []]. *)
Definition traverse (adj_graph : graph) (first_func : string)
  : option (result (bool * dfs_state)) :=
  is_cyclic (recursion_budget adj_graph first_func) first_func
            (adj_graph, ∅, []).

Definition check_dag (faasr_payload : payload) : option (result (list string)) :=
  let funcs := dict_keys (ActionList faasr_payload) in
  if negb (dict_mem (FunctionInvoke faasr_payload) (ActionList faasr_payload))
  then Some (Raise InvalidEntryPoint)
  else
    match build_adjacency_graph faasr_payload with
    | Raise e => Some (Raise e)
    | Return (adj_graph, ranks) =>
        match find_first_func funcs ranks with
        | Raise e => Some (Raise e)
        | Return None => Some (Raise NoRoot)
        | Return (Some first_func) =>
            match traverse adj_graph first_func with
            | None => None
            | Some (Raise e) => Some (Raise e)
            | Some (Return (_, (adj_graph, visited, _))) =>
                Some (_ ← check_visited funcs visited;
                      let pre := predecessors_list adj_graph in
                      let curr_pre :=
                        (defaultdict_get (FunctionInvoke faasr_payload) pre).1 in
                      Return (real_pre ranks curr_pre))
            end
        end
    end.

(** ** Notions used in the statements *)

(** The successor references of an [InvokeNext] value in the order in which
    the graph builder reads them, conditional branches flattened. *)
Definition references (n : invoke_next) : list string :=
  flat_map (fun child =>
              match child with
              | Ref reference => [reference]
              | Conditional branches => concat branches.*2
              end)
           (as_list n).

(** All (owning action, successor reference) pairs of a workflow, in the
    order of the nested loops of [build_adjacency_graph]. *)
Definition edge_refs (p : payload) : list (string * string) :=
  flat_map (fun '(func, act) => map (pair func) (references (InvokeNext act)))
           (ActionList p).

(** Running [process_action] over a sequence of such pairs. *)
Definition process_edges (es : list (string * string))
  : graph * rank_table -> result (graph * rank_table) :=
  for_each (fun '(func, reference) => process_action func reference) es.

(** A reference names the action [name]. *)
Definition refers_to (reference name : string) : Prop :=
  exists rank, extract_rank reference = Return (name, rank).

(** Edges, paths and cycles of an adjacency graph. *)
Definition edge (adj_graph : graph) (u v : string) : Prop :=
  v ∈ successors adj_graph u.

Definition reachable (adj_graph : graph) : relation string :=
  rtc (edge adj_graph).

Definition on_cycle (adj_graph : graph) (x : string) : Prop :=
  tc (edge adj_graph) x x.

(** Number of edges into [target], whatever their origin. *)
Definition in_degree (adj_graph : graph) (target : string) : nat :=
  length (filter (fun v => v = target) (concat adj_graph.*2)).

(** The entry of the predecessor map for [target]: the keys of the
    adjacency graph in order, once per occurrence of [target] among their
    successors. *)
Definition predecessors (adj_graph : graph) (target : string) : list string :=
  flat_map (fun '(func1, succs) =>
              flat_map (fun func2 =>
                          if decide (func2 = target) then [func1] else [])
                       succs)
           adj_graph.


(** The graph of a workflow definition read off its references, without
    running the builder. *)
Definition payload_edge (p : payload) (u v : string) : Prop :=
  exists act reference,
    (u, act) ∈ ActionList p /\ reference ∈ references (InvokeNext act) /\
    refers_to reference v.






(** The first element of a list that satisfies a test. *)
Definition first_such {A} (P : A -> Prop) (l : list A) (x : A) : Prop :=
  exists l1 l2, l = l1 ++ x :: l2 /\ P x /\ forall y, y ∈ l1 -> ~ P y.


(** ** Invariants of the traversal *)

(** The traversal only ever adds keys without successors to the graph. *)
Definition extends (adj0 adj : graph) : Prop :=
  exists ks : list string, adj = adj0 ++ map (fun k => (k, [])) ks.

(** The nodes the traversal has left, latest first: each was left after
    all its successors. *)
Inductive finished_order (adj_graph : graph) : list string -> Prop :=
  | finished_nil : finished_order adj_graph []
  | finished_cons u F :
      finished_order adj_graph F -> u ∉ F ->
      (forall c, edge adj_graph u c -> c ∈ F) ->
      finished_order adj_graph (u :: F).

(** What holds of the graph, the [visited] set and the [stack] between two
    steps of the traversal of [adj0] from [root]; [F] lists the nodes that
    are visited and no longer on the stack. *)
Record dfs_inv (adj0 : graph) (root : string)
    (adj : graph) (visited : gset string) (stack F : list string) : Prop := {
  inv_graph : extends adj0 adj;
  inv_visited : forall x, x ∈ visited <-> x ∈ stack \/ x ∈ F;
  inv_disjoint : forall x, x ∈ stack -> x ∉ F;
  inv_order : finished_order adj0 F;
  inv_stack : NoDup stack;
  inv_names : forall x, x ∈ stack -> x ∈ graph_names adj0 root;
  inv_reach : forall x, x ∈ visited -> reachable adj0 root x
}.

(** The error the traversal may stop with: an edge [u -> v] from a node
    reachable from the root back to a node that reaches [u]. *)
Definition back_edge_error (adj0 : graph) (root : string) (e : error) : Prop :=
  exists u v, e = CyclicGraph u v /\ edge adj0 u v /\
              reachable adj0 v u /\ reachable adj0 root u.

(** What a call of [is_cyclic] on an unvisited node does, as a property of
    the function [rec] that is called, for a given [stack]. *)
Definition dfs_call_spec (adj0 : graph) (root : string)
    (rec : string -> dfs_state -> option (result (bool * dfs_state)))
    (stack : list string) : Prop :=
  forall curr adj visited F,
    dfs_inv adj0 root adj visited stack F ->
    curr ∉ visited -> curr ∈ graph_names adj0 root ->
    (forall x, x ∈ stack -> reachable adj0 x curr) ->
    reachable adj0 root curr ->
    match rec curr (adj, visited, stack) with
    | None => False
    | Some (Raise e) => back_edge_error adj0 root e
    | Some (Return (b, (adj', visited', stack'))) =>
        b = false /\ stack' = stack /\
        exists F', dfs_inv adj0 root adj' visited' stack F' /\ curr ∈ F' /\
                   forall x, x ∈ F -> x ∈ F'
    end.

(** ** [get_openwhisk_credentials] *)

(** [s.lower()] for ASCII text. *)
Definition ascii_lower (c : ascii) : ascii :=
  let n := nat_of_ascii c in
  if ((65 <=? n)%nat && (n <=? 90)%nat)%bool then ascii_of_nat (n + 32) else c.

Fixpoint str_lower (s : string) : string :=
  match s with
  | EmptyString => EmptyString
  | String c s' => String (ascii_lower c) (str_lower s')
  end.

(** The outcomes of [get_openwhisk_credentials]: the returned triple, a
    [KeyError] of a subscript, or [sys.exit(1)] after the message "Error: No
    OpenWhisk server configuration found in workflow data". *)
Inductive ow_result : Type :=
  | OwReturn (api_host namespace : string) (ssl : bool)
  | OwKeyError (key : string)
  | OwExit.

(** The part of the workflow definition that the function reads:
    [ComputeServers], when present, maps a server name to its
    configuration; the fields read are strings. *)
Record workflow_servers : Type := {
  ComputeServers : option (list (string * list (string * string)))
}.

(** The loop over [workflow_data['ComputeServers'].items()]. *)
Fixpoint find_openwhisk (servers : list (string * list (string * string)))
  : ow_result :=
  match servers with
  | [] => OwExit
  | (server_name, server_config) :: rest =>
      match dict_get "FaaSType" server_config with
      | None => OwKeyError "FaaSType"
      | Some faas_type =>
          if decide (str_lower faas_type = "openwhisk") then
            match dict_get "Endpoint" server_config with
            | None => OwKeyError "Endpoint"
            | Some endpoint =>
                match dict_get "Namespace" server_config with
                | None => OwKeyError "Namespace"
                | Some namespace =>
                    match dict_get "SSL" server_config with
                    | None => OwKeyError "SSL"
                    | Some ssl =>
                        OwReturn endpoint namespace
                                 (bool_decide (str_lower ssl = "true"))
                    end
                end
            end
          else find_openwhisk rest
      end
  end.

Definition get_openwhisk_credentials (workflow_data : workflow_servers)
  : ow_result :=
  match ComputeServers workflow_data with
  | None => OwKeyError "ComputeServers"
  | Some servers => find_openwhisk servers
  end.

(** ** Further notions used in the statements *)

(** The base names of the references that [f] owns in a sequence of
    (owner, reference) pairs, in order. *)
Definition referred_names (es : list (string * string)) (f : string)
  : list string :=
  flat_map (fun '(func, reference) =>
              if decide (func = f) then
                match extract_rank reference with
                | Return (name, _) => [name]
                | Raise _ => []
                end
              else [])
           es.

(** Some reference of the workflow names [k]. *)
Definition referred (p : payload) (k : string) : Prop :=
  exists func reference, (func, reference) ∈ edge_refs p /\ refers_to reference k.

(** The action [k] owns some reference. *)
Definition owns_reference (p : payload) (k : string) : Prop :=
  exists reference, (k, reference) ∈ edge_refs p.

(** The last reference to [k] in a sequence declares the rank [r]. *)
Definition last_rank (es : list (string * string)) (k : string) (r : Z) : Prop :=
  exists es1 func reference es2,
    es = es1 ++ (func, reference) :: es2 /\
    extract_rank reference = Return (k, r) /\
    forall g reference', (g, reference') ∈ es2 -> ~ refers_to reference' k.

(** Number of occurrences of a name in a list. *)
Definition occurrences (x : string) (l : list string) : nat :=
  length (filter (fun y => y = x) l).

(** ** Example workflows *)

Definition invoking (n : invoke_next) : action := {| InvokeNext := n |}.

(** [A -> B]. *)
Definition wf_chain : payload :=
  {| ActionList := [("A", invoking (NextStr "B")); ("B", invoking (NextList []))];
     FunctionInvoke := "B" |}.

(** The same workflow asked for an action it does not declare. *)
Definition wf_missing_target : payload :=
  {| ActionList := ActionList wf_chain; FunctionInvoke := "Z" |}.

(** [A] fans out to two copies each of [B] and [C], which both invoke [D]. *)
Definition wf_fanout : payload :=
  {| ActionList := [("A", invoking (NextList [Ref "B(2)"; Ref "C(2)"]));
                    ("B", invoking (NextStr "D"));
                    ("C", invoking (NextStr "D"));
                    ("D", invoking (NextList []))];
     FunctionInvoke := "D" |}.

(** A diamond without a cycle whose ranked action [B] is named twice. *)
Definition wf_ambiguous : payload :=
  {| ActionList := [("A", invoking (NextList [Ref "B(2)"; Ref "C"]));
                    ("C", invoking (NextStr "B"));
                    ("B", invoking (NextList []))];
     FunctionInvoke := "B" |}.

(** The same diamond with the rank declared on the later reference. *)
Definition wf_late_rank : payload :=
  {| ActionList := [("A", invoking (NextList [Ref "B"; Ref "C"]));
                    ("C", invoking (NextStr "B(3)"));
                    ("B", invoking (NextList []))];
     FunctionInvoke := "B" |}.

(** [A -> B -> C -> B]. *)
Definition wf_loop : payload :=
  {| ActionList := [("A", invoking (NextStr "B"));
                    ("B", invoking (NextStr "C"));
                    ("C", invoking (NextStr "B"))];
     FunctionInvoke := "A" |}.

(** [A -> B] and an action [C] that nothing invokes. *)
Definition wf_unreachable : payload :=
  {| ActionList := [("A", invoking (NextStr "B")); ("C", invoking (NextList []))];
     FunctionInvoke := "A" |}.


(** [A -> B] with the rank of [B] written as [x]. *)
Definition wf_non_numeric : payload :=
  {| ActionList := [("A", invoking (NextStr "B(x)"));
                    ("B", invoking (NextList []))];
     FunctionInvoke := "A" |}.

(** A single action that invokes nothing. *)
Definition wf_isolated : payload :=
  {| ActionList := [("C", invoking (NextList []))]; FunctionInvoke := "C" |}.

(** An action that invokes nothing and is not invoked, declared first. *)
Definition wf_no_rank_first : payload :=
  {| ActionList := [("C", invoking (NextList []));
                    ("A", invoking (NextStr "B"));
                    ("B", invoking (NextList []))];
     FunctionInvoke := "A" |}.

(** [A -> B] with the reference written [B(0)], [B] declared first. *)
Definition wf_rank_zero : payload :=
  {| ActionList := [("B", invoking (NextList []));
                    ("A", invoking (NextStr "B(0)"))];
     FunctionInvoke := "A" |}.

(** [A -> B -> A]. *)
Definition wf_two_cycle : payload :=
  {| ActionList := [("A", invoking (NextStr "B")); ("B", invoking (NextStr "A"))];
     FunctionInvoke := "A" |}.

(** [A] invokes three copies of [B], which invokes [C]. *)
Definition wf_ranked_chain : payload :=
  {| ActionList := [("A", invoking (NextStr "B(3)"));
                    ("B", invoking (NextStr "C"));
                    ("C", invoking (NextList []))];
     FunctionInvoke := "C" |}.

(** A reference inside a conditional branch. *)
Definition wf_conditional : payload :=
  {| ActionList :=
       [("A", invoking (NextList [Conditional [("True", ["B"]); ("False", ["C"])]]));
        ("B", invoking (NextList []));
        ("C", invoking (NextList []))];
     FunctionInvoke := "C" |}.

(** Heights along which the edges of [wf_ambiguous] and [wf_fanout]
    descend. *)
Definition diamond_height (x : string) : nat :=
  if decide (x = "A") then 2 else if decide (x = "C") then 1 else 0.



(** * Properties *)

(** ** Strings *)

Module PyFacts.

Lemma split_nonempty sep s : Py.split sep s <> [].
Proof.
  destruct s as [|c s]; simpl; [discriminate|].
  destruct (Ascii.eqb c sep); [discriminate|].
  destruct (Py.split sep s); discriminate.
Qed.

Lemma split_length sep s : length (Py.split sep s) = S (Py.count sep s).
Proof.
  induction s as [|c s IH]; simpl; [reflexivity|].
  destruct (Ascii.eqb c sep); simpl; [now rewrite IH|].
  destruct (Py.split sep s) eqn:E; simpl in *; [discriminate|exact IH].
Qed.

Lemma split_none sep s : Py.count sep s = 0 -> Py.split sep s = [s].
Proof.
  induction s as [|c s IH]; simpl; [reflexivity|].
  destruct (Ascii.eqb c sep); simpl; [discriminate|].
  intros H. now rewrite (IH H).
Qed.

Lemma split_app sep a b :
  Py.count sep a = 0 ->
  Py.split sep (a +:+ String sep b) = a :: Py.split sep b.
Proof.
  induction a as [|c a IH]; simpl.
  - intros _. now rewrite Ascii.eqb_refl.
  - destruct (Ascii.eqb c sep); simpl; [discriminate|].
    intros H. now rewrite (IH H).
Qed.

(** A string with exactly one separator is a prefix, the separator and a
    suffix, both free of it. *)
Lemma count_one sep s :
  Py.count sep s = 1 ->
  exists a b, s = a +:+ String sep b /\ Py.count sep a = 0 /\ Py.count sep b = 0.
Proof.
  induction s as [|c s IH]; simpl; [discriminate|].
  destruct (Ascii.eqb_spec c sep) as [->|Hne]; simpl.
  - intros H. exists EmptyString, s. repeat split. lia.
  - intros H. destruct (IH H) as (a & b & -> & Ha & Hb).
    exists (String c a), b. simpl.
    destruct (Ascii.eqb_spec c sep); [contradiction|]. auto.
Qed.

Lemma count_app c a b : Py.count c (a +:+ b) = Py.count c a + Py.count c b.
Proof. induction a as [|x a IH]; simpl; [reflexivity|]. rewrite IH. lia. Qed.

Lemma endswith_app a c b x :
  Py.endswith (a +:+ String c b) x = Py.endswith (String c b) x.
Proof.
  induction a as [|y a IH]; [reflexivity|].
  change (String y a +:+ String c b) with (String y (a +:+ String c b)).
  destruct a; exact IH.
Qed.

Lemma endswith_cons c b x :
  b <> EmptyString -> Py.endswith (String c b) x = Py.endswith b x.
Proof. destruct b; [congruence|reflexivity]. Qed.

Lemma endswith_snoc b x : Py.endswith (b +:+ String x EmptyString) x = true.
Proof.
  induction b as [|c b IH]; simpl; [apply Ascii.eqb_refl|].
  destruct b; exact IH.
Qed.

Lemma drop_last_snoc b x : Py.drop_last (b +:+ String x EmptyString) = b.
Proof.
  induction b as [|c b IH]; [reflexivity|].
  change (Py.drop_last (String c (b +:+ String x EmptyString)) = String c b).
  simpl. destruct b; simpl in *; [reflexivity|]. now rewrite IH.
Qed.

Lemma endswith_split b x :
  Py.endswith b x = true -> exists body, b = body +:+ String x EmptyString.
Proof.
  induction b as [|c b IH]; simpl; [discriminate|].
  destruct b as [|c' b'].
  - intros ->%Ascii.eqb_eq. now exists EmptyString.
  - intros H. destruct (IH H) as [body ->]. now exists (String c body).
Qed.

End PyFacts.

(** ** The action reference parser *)

Section extract_rank.

Lemma extract_rank_other_count s :
  Py.count "(" s <> 1 -> extract_rank s = Return (s, 1%Z).
Proof.
  intros H. unfold extract_rank.
  pose proof (PyFacts.split_length "(" s) as L.
  destruct (Py.split "(" s) as [|a [|b [|c l]]]; simpl in L; try reflexivity.
  lia.
Qed.

Lemma extract_rank_no_rparen s :
  Py.endswith s ")" = false -> extract_rank s = Return (s, 1%Z).
Proof.
  intros H.
  destruct (decide (Py.count "(" s = 1)) as [C|C];
    [|now apply extract_rank_other_count].
  destruct (PyFacts.count_one _ _ C) as (a & b & -> & Ha & Hb).
  unfold extract_rank.
  rewrite (PyFacts.split_app _ _ _ Ha), (PyFacts.split_none _ _ Hb).
  rewrite PyFacts.endswith_app in H.
  destruct b as [|c b]; [reflexivity|].
  rewrite PyFacts.endswith_cons in H by discriminate.
  now rewrite H.
Qed.

Lemma extract_rank_parenthesised name body :
  Py.count "(" name = 0 -> Py.count "(" body = 0 ->
  extract_rank (name +:+ "(" +:+ body +:+ ")") =
    match Py.int body with
    | Some rank => Return (name, rank)
    | None => Raise (ValueError body)
    end.
Proof.
  intros Hn Hb. unfold extract_rank.
  change (name +:+ "(" +:+ body +:+ ")")
    with (name +:+ String "(" (body +:+ ")")).
  rewrite (PyFacts.split_app _ _ _ Hn), PyFacts.split_none.
  - now rewrite PyFacts.endswith_snoc, PyFacts.drop_last_snoc.
  - rewrite PyFacts.count_app, Hb. reflexivity.
Qed.

End extract_rank.

(** ** Dictionaries *)

Section dict_facts.
Context {V : Type}.
Implicit Types (d : list (string * V)) (k : string) (v : V).

Lemma dict_get_set_eq k v d : dict_get k (dict_set k v d) = Some v.
Proof.
  induction d as [|[k' v'] d IH]; simpl.
  - now rewrite decide_True.
  - destruct (decide (k = k')) as [->|Hne]; simpl.
    + now rewrite decide_True.
    + now rewrite decide_False.
Qed.

Lemma dict_get_set_ne k k' v d :
  k <> k' -> dict_get k (dict_set k' v d) = dict_get k d.
Proof.
  intros Hne. induction d as [|[k'' v'] d IH]; simpl.
  - now rewrite decide_False.
  - destruct (decide (k' = k'')) as [->|Hne']; simpl.
    + now rewrite !decide_False.
    + destruct (decide (k = k'')); [reflexivity|exact IH].
Qed.

Lemma dict_get_set k k' v d :
  dict_get k (dict_set k' v d) = if decide (k = k') then Some v else dict_get k d.
Proof.
  destruct (decide (k = k')) as [->|Hne].
  - apply dict_get_set_eq.
  - now apply dict_get_set_ne.
Qed.

Lemma dict_set_fresh k v d : dict_get k d = None -> dict_set k v d = d ++ [(k, v)].
Proof.
  induction d as [|[k' v'] d IH]; simpl; [reflexivity|].
  destruct (decide (k = k')); [discriminate|].
  intros H. now rewrite (IH H).
Qed.

Lemma dict_keys_set k v d :
  dict_keys (dict_set k v d) =
    if dict_mem k d then dict_keys d else dict_keys d ++ [k].
Proof.
  unfold dict_mem, dict_keys. induction d as [|[k' v'] d IH]; [reflexivity|].
  cbn [dict_set dict_get]. destruct (decide (k = k')) as [->|Hne].
  - rewrite bool_decide_true by (now eexists). reflexivity.
  - cbn [fmap list_fmap]. rewrite IH.
    destruct (bool_decide (is_Some (dict_get k d))); reflexivity.
Qed.

Lemma dict_get_Some_In k v d : dict_get k d = Some v -> (k, v) ∈ d.
Proof.
  induction d as [|[k' v'] d IH]; simpl; [discriminate|].
  destruct (decide (k = k')) as [->|Hne].
  - intros [= ->]. left.
  - intros H. right. auto.
Qed.

Lemma dict_get_None k d : dict_get k d = None <-> k ∉ dict_keys d.
Proof.
  unfold dict_keys. induction d as [|[k' v'] d IH]; simpl.
  - split; [intros _; apply not_elem_of_nil|reflexivity].
  - rewrite not_elem_of_cons. destruct (decide (k = k')) as [->|Hne].
    + split; [discriminate|]. intros [? _]. congruence.
    + rewrite IH. tauto.
Qed.

Lemma dict_get_In_NoDup k v d :
  NoDup (dict_keys d) -> (k, v) ∈ d -> dict_get k d = Some v.
Proof.
  unfold dict_keys. induction d as [|[k' v'] d IH]; simpl.
  - intros _ H. now apply elem_of_nil in H.
  - intros Hnd H. apply NoDup_cons in Hnd as [Hk Hnd].
    apply elem_of_cons in H as [[= -> ->]|H].
    + now rewrite decide_True.
    + destruct (decide (k = k')) as [->|Hne]; [|auto].
      exfalso. apply Hk. apply list_elem_of_fmap. now exists (k', v).
Qed.

Lemma dict_mem_true k d : dict_mem k d = true <-> k ∈ dict_keys d.
Proof.
  unfold dict_mem. rewrite bool_decide_eq_true.
  destruct (dict_get k d) eqn:E.
  - split; [intros _|now eexists].
    destruct (decide (k ∈ dict_keys d)) as [|Hn]; [assumption|].
    apply dict_get_None in Hn. congruence.
  - split; [now intros [? ?]|]. intros H. now apply dict_get_None in E.
Qed.

(** Assignment keeps the keys of a dictionary pairwise distinct. *)
Lemma dict_set_NoDup k v d : NoDup (dict_keys d) -> NoDup (dict_keys (dict_set k v d)).
Proof.
  intros H. rewrite dict_keys_set. destruct (dict_mem k d) eqn:E; [assumption|].
  apply NoDup_app. repeat split; [assumption| |apply NoDup_singleton].
  intros x Hx ->%list_elem_of_singleton.
  apply dict_mem_true in Hx. congruence.
Qed.

End dict_facts.

(** ** The default dictionary *)

Section graph_facts.
Implicit Types (d adj : graph) (k x y : string).

Lemma defaultdict_get_value k d : (defaultdict_get k d).1 = successors d k.
Proof. unfold defaultdict_get, successors. now destruct (dict_get k d). Qed.

(** Reading a missing key adds it with no successors, at the end. *)
Lemma defaultdict_get_graph k d :
  (defaultdict_get k d).2 = d \/ (defaultdict_get k d).2 = d ++ [(k, [])].
Proof.
  unfold defaultdict_get. destruct (dict_get k d) eqn:E; [now left|right].
  simpl. now apply dict_set_fresh.
Qed.

Lemma successors_defaultdict_get k d x :
  successors (defaultdict_get k d).2 x = successors d x.
Proof.
  unfold defaultdict_get, successors.
  destruct (dict_get k d) eqn:E; [reflexivity|]. simpl.
  rewrite dict_get_set. destruct (decide (x = k)) as [->|]; [|reflexivity].
  now rewrite E.
Qed.

Lemma successors_defaultdict_append k x d y :
  successors (defaultdict_append k x d) y =
    successors d y ++ (if decide (y = k) then [x] else []).
Proof.
  unfold defaultdict_append.
  pose proof (defaultdict_get_value k d) as Hv.
  pose proof (successors_defaultdict_get k d y) as Hs.
  destruct (defaultdict_get k d) as [l d']. simpl in *.
  unfold successors at 1. rewrite dict_get_set.
  destruct (decide (y = k)) as [->|Hne]; simpl.
  - now rewrite Hv.
  - fold (successors d' y). rewrite Hs. now rewrite app_nil_r.
Qed.

Lemma dict_keys_defaultdict_append k x d :
  dict_keys (defaultdict_append k x d) =
    if dict_mem k d then dict_keys d else dict_keys d ++ [k].
Proof.
  unfold defaultdict_append, defaultdict_get.
  destruct (dict_get k d) eqn:E.
  - rewrite dict_keys_set. reflexivity.
  - rewrite !dict_keys_set.
    assert (dict_mem k d = false) as ->.
    { apply not_true_iff_false. rewrite dict_mem_true. now apply dict_get_None. }
    assert (dict_mem k (dict_set k [] d) = true) as ->; [|reflexivity].
    unfold dict_mem. rewrite dict_get_set_eq. apply bool_decide_eq_true. now eexists.
Qed.

Lemma successors_keys adj x c : c ∈ successors adj x -> x ∈ dict_keys adj.
Proof.
  unfold successors. destruct (dict_get x adj) eqn:E; simpl.
  - intros _. apply dict_mem_true. unfold dict_mem.
    apply bool_decide_eq_true. rewrite E. now eexists.
  - intros H. now apply elem_of_nil in H.
Qed.

Lemma successors_values adj x c : c ∈ successors adj x -> c ∈ concat adj.*2.
Proof.
  unfold successors. destruct (dict_get x adj) as [l|] eqn:E; simpl.
  - intros H. apply list_elem_of_In, in_concat. exists l.
    split; [|now apply list_elem_of_In].
    apply list_elem_of_In, list_elem_of_fmap. exists (x, l).
    split; [reflexivity|]. now apply dict_get_Some_In.
  - intros H. now apply elem_of_nil in H.
Qed.

End graph_facts.

(** ** Loops *)

Section loops.
Context {A S : Type}.
Implicit Types (body : A -> S -> result S) (s : S).

Lemma for_each_app body l1 l2 s :
  for_each body (l1 ++ l2) s = (s' ← for_each body l1 s; for_each body l2 s').
Proof.
  revert s. induction l1 as [|x l1 IH]; intros s; simpl; [reflexivity|].
  destruct (body x s); simpl; [apply IH|reflexivity].
Qed.

Lemma for_each_concat body (ls : list (list A)) s :
  for_each (fun l => for_each body l) ls s = for_each body (concat ls) s.
Proof.
  revert s. induction ls as [|l ls IH]; intros s; simpl; [reflexivity|].
  rewrite for_each_app. destruct (for_each body l s); simpl; [apply IH|reflexivity].
Qed.

(** A loop whose body keeps a property of the state keeps it to the end. *)
Lemma for_each_invariant (P : S -> Prop) body l s s' :
  (forall x t t', x ∈ l -> P t -> body x t = Return t' -> P t') ->
  P s -> for_each body l s = Return s' -> P s'.
Proof.
  revert s. induction l as [|x l IH]; intros s Hstep Hs; simpl.
  - now intros [= <-].
  - destruct (body x s) as [t|] eqn:E; simpl; [|discriminate].
    apply IH.
    + intros y u u' Hy. apply Hstep. now right.
    + eapply Hstep; [left| |]; eassumption.
Qed.

End loops.

(** ** The graph builder as one loop over the references *)

Section builder.
Implicit Types (p : payload) (adj : graph) (ranks : rank_table).

Lemma process_child_references func entries st :
  for_each (process_child func) entries st =
    for_each (process_action func)
             (flat_map (fun child =>
                          match child with
                          | Ref reference => [reference]
                          | Conditional branches => concat branches.*2
                          end) entries) st.
Proof.
  revert st. induction entries as [|child entries IH]; intros st; [reflexivity|].
  cbn [for_each flat_map]. rewrite for_each_app.
  destruct child as [reference|branches]; cbn [process_child].
  - cbn [for_each]. destruct (process_action func reference st); simpl;
      [apply IH|reflexivity].
  - rewrite for_each_concat.
    destruct (for_each _ (concat branches.*2) st); simpl; [apply IH|reflexivity].
Qed.

Lemma process_action_edges func refs st :
  for_each (process_action func) refs st = process_edges (map (pair func) refs) st.
Proof.
  unfold process_edges. revert st.
  induction refs as [|r refs IH]; intros st; simpl; [reflexivity|].
  destruct (process_action func r st); simpl; [apply IH|reflexivity].
Qed.

Lemma process_edges_app es1 es2 st :
  process_edges (es1 ++ es2) st = (st' ← process_edges es1 st; process_edges es2 st').
Proof. apply for_each_app. Qed.

(** [build_adjacency_graph] runs [process_action] over [edge_refs] and then
    fills in the default ranks. *)
Lemma build_adjacency_graph_edges p :
  build_adjacency_graph p =
    ('(adj_graph, ranks) ← process_edges (edge_refs p) ([], []);
     Return (adj_graph, default_ranks adj_graph ranks)).
Proof.
  unfold build_adjacency_graph, edge_refs.
  generalize (@nil (string * list string), @nil (string * Z)).
  induction (ActionList p) as [|[func act] l IH]; intros st; [reflexivity|].
  cbn [for_each flat_map]. rewrite process_edges_app.
  rewrite process_child_references, process_action_edges.
  fold (references (InvokeNext act)).
  destruct (process_edges _ st) as [st'|e]; simpl; [|reflexivity].
  apply IH.
Qed.



Lemma process_action_Return func reference adj ranks adj' ranks' :
  process_action func reference (adj, ranks) = Return (adj', ranks') ->
  exists name rank,
    extract_rank reference = Return (name, rank) /\
    rank_gt_1 name ranks = false /\
    adj' = defaultdict_append func name adj /\
    ranks' = dict_set name rank ranks.
Proof.
  unfold process_action. destruct (extract_rank reference) as [[name rank]|];
    simpl; [|discriminate].
  destruct (rank_gt_1 name ranks) eqn:E; [discriminate|].
  intros [= <- <-]. now exists name, rank.
Qed.

End builder.

(** ** What the builder leaves in the rank table and in the graph *)

Section builder_tables.
Implicit Types (p : payload) (adj : graph) (ranks : rank_table)
  (es : list (string * string)).

Lemma process_edges_cons func reference es st :
  process_edges ((func, reference) :: es) st =
    (st' ← process_action func reference st; process_edges es st').
Proof. reflexivity. Qed.

(** A name enters the rank table only by being referred to. *)
Lemma process_edges_rank_keys es adj ranks adj' ranks' k :
  process_edges es (adj, ranks) = Return (adj', ranks') ->
  k ∈ dict_keys ranks' ->
  k ∈ dict_keys ranks \/
  exists func reference, (func, reference) ∈ es /\ refers_to reference k.
Proof.
  revert adj ranks. induction es as [|[func reference] es IH]; intros adj ranks.
  - intros [= <- <-]. now left.
  - rewrite process_edges_cons.
    destruct (process_action func reference (adj, ranks)) as [[adj1 ranks1]|] eqn:E;
      simpl; [|discriminate].
    intros Hrun Hk.
    apply process_action_Return in E as (name & rank & Hp & _ & -> & ->).
    destruct (IH _ _ Hrun Hk) as [Hin|(f & r & Hin & Hr)].
    + rewrite dict_keys_set in Hin.
      destruct (dict_mem name ranks); [now left|].
      apply elem_of_app in Hin as [Hin| ->%list_elem_of_singleton]; [now left|].
      right. exists func, reference. split; [left|now exists rank].
    + right. exists f, r. split; [now right|assumption].
Qed.

(** A name becomes a key of the graph only by owning a reference. *)
Lemma process_edges_graph_keys es adj ranks adj' ranks' k :
  process_edges es (adj, ranks) = Return (adj', ranks') ->
  k ∈ dict_keys adj' ->
  k ∈ dict_keys adj \/ exists reference, (k, reference) ∈ es.
Proof.
  revert adj ranks. induction es as [|[func reference] es IH]; intros adj ranks.
  - intros [= <- <-]. now left.
  - rewrite process_edges_cons.
    destruct (process_action func reference (adj, ranks)) as [[adj1 ranks1]|] eqn:E;
      simpl; [|discriminate].
    intros Hrun Hk.
    apply process_action_Return in E as (name & rank & Hp & _ & -> & ->).
    destruct (IH _ _ Hrun Hk) as [Hin|(r & Hin)].
    + rewrite dict_keys_defaultdict_append in Hin.
      destruct (dict_mem func adj); [now left|].
      apply elem_of_app in Hin as [Hin| ->%list_elem_of_singleton]; [now left|].
      right. exists reference. left.
    + right. exists r. now right.
Qed.

(** The rank of a name that no later reference names stays as it is. *)
Lemma process_edges_rank_stable es adj ranks adj' ranks' name :
  process_edges es (adj, ranks) = Return (adj', ranks') ->
  (forall func reference, (func, reference) ∈ es -> ~ refers_to reference name) ->
  dict_get name ranks' = dict_get name ranks.
Proof.
  revert adj ranks. induction es as [|[func reference] es IH]; intros adj ranks.
  - now intros [= <- <-].
  - rewrite process_edges_cons.
    destruct (process_action func reference (adj, ranks)) as [[adj1 ranks1]|] eqn:E;
      simpl; [|discriminate].
    intros Hrun Hno.
    apply process_action_Return in E as (name' & rank & Hp & _ & -> & ->).
    rewrite (IH _ _ Hrun) by (intros f r Hin; apply (Hno f r); now right).
    apply dict_get_set_ne. intros ->.
    apply (Hno func reference); [left|now exists rank].
Qed.

(** Edges are never removed. *)
Lemma process_edges_successors_mono es adj ranks adj' ranks' f c :
  process_edges es (adj, ranks) = Return (adj', ranks') ->
  c ∈ successors adj f -> c ∈ successors adj' f.
Proof.
  revert adj ranks. induction es as [|[func reference] es IH]; intros adj ranks.
  - now intros [= <- <-].
  - rewrite process_edges_cons.
    destruct (process_action func reference (adj, ranks)) as [[adj1 ranks1]|] eqn:E;
      simpl; [|discriminate].
    intros Hrun Hc.
    apply process_action_Return in E as (name' & rank & Hp & _ & -> & ->).
    apply (IH _ _ Hrun). rewrite successors_defaultdict_append.
    apply elem_of_app. now left.
Qed.

Lemma default_ranks_step func ranks k :
  dict_get k (if dict_mem func ranks then ranks else dict_set func 0%Z ranks) =
    match dict_get k ranks with
    | Some r => Some r
    | None => if decide (k = func) then Some 0%Z else None
    end.
Proof.
  destruct (dict_mem func ranks) eqn:E.
  - destruct (dict_get k ranks) eqn:G; [reflexivity|].
    destruct (decide (k = func)) as [->|]; [|reflexivity].
    apply dict_mem_true in E. now apply dict_get_None in G.
  - rewrite dict_get_set. destruct (decide (k = func)) as [->|]; [|now destruct (dict_get k ranks)].
    assert (dict_get func ranks = None) as ->; [|reflexivity].
    apply dict_get_None. rewrite <- dict_mem_true. congruence.
Qed.

(** The default rank respects the ranks already recorded, and gives rank 0
    exactly to the keys of the graph that have none. *)
Lemma default_ranks_get adj ranks k :
  dict_get k (default_ranks adj ranks) =
    match dict_get k ranks with
    | Some r => Some r
    | None => if decide (k ∈ dict_keys adj) then Some 0%Z else None
    end.
Proof.
  unfold default_ranks. generalize (dict_keys adj) as ks. intros ks.
  revert ranks. induction ks as [|func ks IH]; intros ranks; cbn [fold_left].
  - destruct (dict_get k ranks); [reflexivity|].
    rewrite decide_False; [reflexivity|apply not_elem_of_nil].
  - rewrite IH, default_ranks_step.
    destruct (dict_get k ranks); [reflexivity|].
    destruct (decide (k = func)) as [->|Hne].
    + rewrite decide_True; [reflexivity|left].
    + destruct (decide (k ∈ ks)).
      * rewrite decide_True; [reflexivity|now right].
      * rewrite decide_False; [reflexivity|]. rewrite elem_of_cons. tauto.
Qed.

(** The first phase of a successful build. *)
Lemma build_adjacency_graph_Return p adj ranks :
  build_adjacency_graph p = Return (adj, ranks) ->
  exists ranks0,
    process_edges (edge_refs p) ([], []) = Return (adj, ranks0) /\
    ranks = default_ranks adj ranks0.
Proof.
  rewrite build_adjacency_graph_edges.
  destruct (process_edges _ _) as [[adj0 ranks0]|]; simpl; [|discriminate].
  intros [= <- <-]. now exists ranks0.
Qed.

(** An action without references that nothing refers to has no rank at
    all after the build. *)
Lemma build_no_rank p adj ranks f :
  build_adjacency_graph p = Return (adj, ranks) ->
  (forall reference, (f, reference) ∉ edge_refs p) ->
  (forall func reference, (func, reference) ∈ edge_refs p -> ~ refers_to reference f) ->
  dict_get f ranks = None.
Proof.
  intros (ranks0 & Hrun & ->)%build_adjacency_graph_Return Hown Href.
  rewrite default_ranks_get.
  assert (dict_get f ranks0 = None) as ->.
  { apply dict_get_None. intros Hk.
    destruct (process_edges_rank_keys _ _ _ _ _ _ Hrun Hk) as [H|(func & r & Hin & Hr)].
    - now apply elem_of_nil in H.
    - exact (Href _ _ Hin Hr). }
  rewrite decide_False; [reflexivity|]. intros Hk.
  destruct (process_edges_graph_keys _ _ _ _ _ _ Hrun Hk) as [H|(r & Hin)].
  - now apply elem_of_nil in H.
  - exact (Hown _ Hin).
Qed.

End builder_tables.

(** ** Graphs that differ by keys without successors *)

Section extends_facts.
Implicit Types (adj : graph) (k x : string).

Lemma dict_get_app {V} k (d1 d2 : list (string * V)) :
  dict_get k (d1 ++ d2) =
    match dict_get k d1 with Some v => Some v | None => dict_get k d2 end.
Proof.
  induction d1 as [|[k' v'] d1 IH]; simpl; [reflexivity|].
  destruct (decide (k = k')); [reflexivity|exact IH].
Qed.

Lemma successors_empties ks x :
  successors (map (fun k => (k, [])) ks) x = [].
Proof.
  unfold successors. induction ks as [|k ks IH]; simpl; [reflexivity|].
  destruct (decide (x = k)); [reflexivity|exact IH].
Qed.

Lemma extends_refl (adj0 : graph) : extends adj0 adj0.
Proof. exists []. simpl. now rewrite app_nil_r. Qed.

Lemma extends_successors (adj0 : graph) adj x :
  extends adj0 adj -> successors adj x = successors adj0 x.
Proof.
  intros [ks ->]. unfold successors at 1 2. rewrite dict_get_app.
  destruct (dict_get x adj0); [reflexivity|].
  apply (successors_empties ks x).
Qed.

Lemma extends_defaultdict_get (adj0 : graph) adj k :
  extends adj0 adj -> extends adj0 (defaultdict_get k adj).2.
Proof.
  intros [ks ->].
  destruct (defaultdict_get_graph k (adj0 ++ map (fun k => (k, [])) ks)) as [->| ->].
  - now exists ks.
  - exists (ks ++ [k]). now rewrite map_app, app_assoc.
Qed.

Lemma predecessors_app (adj1 adj2 : graph) target :
  predecessors (adj1 ++ adj2) target =
    predecessors adj1 target ++ predecessors adj2 target.
Proof. unfold predecessors. apply flat_map_app. Qed.

Lemma extends_predecessors (adj0 : graph) adj target :
  extends adj0 adj -> predecessors adj target = predecessors adj0 target.
Proof.
  intros [ks ->]. rewrite predecessors_app.
  assert (predecessors (map (fun k => (k, [])) ks) target = []) as ->.
  { induction ks as [|k ks IH]; [reflexivity|exact IH]. }
  apply app_nil_r.
Qed.

End extends_facts.

(** ** Finished nodes are closed under edges and carry no cycle *)

Section finished.
Variable adj : graph.

Lemma finished_order_edge F x y :
  finished_order adj F -> x ∈ F -> edge adj x y -> y ∈ F.
Proof.
  induction 1 as [|u F HF IH Hu Hc]; intros Hx Hxy.
  - now apply elem_of_nil in Hx.
  - apply elem_of_cons in Hx as [->|Hx]; right; auto.
Qed.

Lemma finished_order_closed F x y :
  finished_order adj F -> x ∈ F -> reachable adj x y -> y ∈ F.
Proof.
  intros HF Hx Hr. induction Hr as [|x y z Hxy _ IH]; [assumption|].
  apply IH. eapply finished_order_edge; eassumption.
Qed.

Lemma tc_first_step (x y : string) :
  tc (edge adj) x y -> exists z, edge adj x z /\ reachable adj z y.
Proof.
  intros H. destruct H as [x y H|x z y H Hz].
  - exists y. split; [assumption|apply rtc_refl].
  - exists z. split; [assumption|now apply tc_rtc].
Qed.

Lemma finished_order_acyclic F x :
  finished_order adj F -> x ∈ F -> ~ on_cycle adj x.
Proof.
  unfold on_cycle. induction 1 as [|u F HF IH Hu Hc]; intros Hx Hcyc.
  - now apply elem_of_nil in Hx.
  - destruct (decide (x = u)) as [->|Hne].
    + apply tc_first_step in Hcyc as (z & Huz & Hzu).
      apply Hu. eapply finished_order_closed; [exact HF|apply Hc, Huz|exact Hzu].
    + apply elem_of_cons in Hx as [->|Hx]; [congruence|]. now apply IH.
Qed.

End finished.

(** ** The traversal *)

Section traversal.
Variables (adj0 : graph) (root : string).

Abbreviation names := (graph_names adj0 root).
Abbreviation inv := (dfs_inv adj0 root).
Abbreviation bad := (back_edge_error adj0 root).

Lemma edge_names u v : edge adj0 u v -> v ∈ names.
Proof.
  intros H. unfold graph_names. right. apply elem_of_app. right.
  eapply successors_values, H.
Qed.

(** The stack never holds more names than the graph has. *)
Lemma stack_bound adj V S F : inv adj V S F -> length S <= length names.
Proof.
  intros I. apply submseteq_length, NoDup_submseteq.
  - apply (inv_stack _ _ _ _ _ _ I).
  - apply (inv_names _ _ _ _ _ _ I).
Qed.

Abbreviation call_spec := (dfs_call_spec adj0 root).

Lemma visit_children_spec rec curr S :
  call_spec rec S -> curr ∈ S ->
  (forall x, x ∈ S -> reachable adj0 x curr) -> reachable adj0 root curr ->
  forall children adj V F,
    inv adj V S F -> (forall c, c ∈ children -> edge adj0 curr c) ->
    match visit_children rec curr children (adj, V, S) with
    | None => False
    | Some (Raise e) => bad e
    | Some (Return (adj', V', S')) =>
        S' = S /\
        exists F', inv adj' V' S F' /\ (forall c, c ∈ children -> c ∈ F') /\
                   forall x, x ∈ F -> x ∈ F'
    end.
Proof.
  intros Hrec Hcurr Hstack Hroot.
  induction children as [|child rest IH]; intros adj V F I Hedges.
  - simpl. split; [reflexivity|]. exists F. split; [assumption|].
    split; [|auto]. intros c Hc. now apply elem_of_nil in Hc.
  - assert (edge adj0 curr child) as Hchild by (apply Hedges; left).
    assert (forall c, c ∈ rest -> edge adj0 curr c) as Hrest
      by (intros c Hc; apply Hedges; now right).
    cbn [visit_children]. case_bool_decide as Hv.
    + specialize (Hrec child adj V F I Hv (edge_names _ _ Hchild)).
      destruct (rec child (adj, V, S)) as [[[b [[adj' V'] S']]|e]|].
      * destruct Hrec as (-> & -> & F' & I' & HcF & Hsub).
        -- intros x Hx. eapply rtc_r; [apply Hstack, Hx|exact Hchild].
        -- eapply rtc_r; [exact Hroot|exact Hchild].
        -- cbn [snd]. rewrite bool_decide_false.
           2:{ intros Hin. exact (inv_disjoint _ _ _ _ _ _ I' _ Hin HcF). }
           specialize (IH adj' V' F' I' Hrest).
           destruct (visit_children rec curr rest (adj', V', S))
             as [[[[adj'' V''] S'']|e]|]; [|exact IH|exact IH].
           destruct IH as (-> & F'' & I'' & Hall & Hsub').
           split; [reflexivity|]. exists F''. split; [assumption|]. split; [|auto].
           intros c [->|Hc]%elem_of_cons; auto.
      * apply Hrec.
        -- intros x Hx. eapply rtc_r; [apply Hstack, Hx|exact Hchild].
        -- eapply rtc_r; [exact Hroot|exact Hchild].
      * apply Hrec.
        -- intros x Hx. eapply rtc_r; [apply Hstack, Hx|exact Hchild].
        -- eapply rtc_r; [exact Hroot|exact Hchild].
    + case_bool_decide as Hs.
      * exists curr, child. repeat split; auto.
      * assert (child ∈ F) as HF.
        { apply (inv_visited _ _ _ _ _ _ I) in Hv as [?|?]; [contradiction|assumption]. }
        specialize (IH adj V F I Hrest).
        destruct (visit_children rec curr rest (adj, V, S))
          as [[[[adj'' V''] S'']|e]|]; [|exact IH|exact IH].
        destruct IH as (-> & F'' & I'' & Hall & Hsub').
        split; [reflexivity|]. exists F''. split; [assumption|]. split; [|auto].
        intros c [->|Hc]%elem_of_cons; auto.
Qed.

(** Entering a node. *)
Lemma inv_push adj V S F curr :
  inv adj V S F -> curr ∉ V -> curr ∈ names -> reachable adj0 root curr ->
  inv (defaultdict_get curr adj).2 (V ∪ {[curr]}) (S ++ [curr]) F.
Proof.
  intros I Hv Hn Hr. destruct I as [Ig Iv Id Io Is In Ir].
  assert (curr ∉ S) as HS by (intros H; apply Hv, Iv; now left).
  assert (curr ∉ F) as HF by (intros H; apply Hv, Iv; now right).
  split.
  - now apply extends_defaultdict_get.
  - intros x. rewrite elem_of_union, elem_of_singleton, elem_of_app,
      list_elem_of_singleton, Iv. tauto.
  - intros x [Hx| ->%list_elem_of_singleton]%elem_of_app; auto.
  - assumption.
  - apply NoDup_app. repeat split; [assumption| |apply NoDup_singleton].
    intros x Hx ->%list_elem_of_singleton. contradiction.
  - intros x [Hx| ->%list_elem_of_singleton]%elem_of_app; auto.
  - intros x [Hx| ->%elem_of_singleton]%elem_of_union; auto.
Qed.

(** Leaving a node all of whose successors are finished. *)
Lemma inv_pop adj V S F curr :
  inv adj V (S ++ [curr]) F -> (forall c, edge adj0 curr c -> c ∈ F) ->
  inv adj V S (curr :: F).
Proof.
  intros [Ig Iv Id Io Is In Ir] Hc.
  apply NoDup_app in Is as (Is & Hdis & _).
  split.
  - assumption.
  - intros x. rewrite Iv, elem_of_app, list_elem_of_singleton, elem_of_cons. tauto.
  - intros x Hx [->|HxF]%elem_of_cons.
    + apply (Hdis _ Hx). now apply list_elem_of_singleton.
    + apply (Id x); [|assumption]. apply elem_of_app. now left.
  - constructor; [assumption| |assumption].
    apply Id, elem_of_app. right. now apply list_elem_of_singleton.
  - assumption.
  - intros x Hx. apply In, elem_of_app. now left.
  - assumption.
Qed.

Lemma is_cyclic_spec budget :
  forall S, length names < budget + length S -> call_spec (is_cyclic budget) S.
Proof.
  induction budget as [|budget IH]; intros S Hlen curr adj V F I Hv Hn Hstack Hroot.
  - cbn [is_cyclic]. pose proof (stack_bound _ _ _ _ I). lia.
  - cbn [is_cyclic].
    assert (curr ∉ S) as HS
      by (intros H; apply Hv, (inv_visited _ _ _ _ _ _ I); now left).
    rewrite bool_decide_false by assumption.
    pose proof (inv_push _ _ _ _ _ I Hv Hn Hroot) as I1.
    pose proof (defaultdict_get_value curr adj) as Hval.
    rewrite (extends_successors adj0) in Hval by apply (inv_graph _ _ _ _ _ _ I).
    destruct (defaultdict_get curr adj) as [children adj1]. simpl in Hval, I1.
    subst children.
    assert (call_spec (is_cyclic budget) (S ++ [curr])) as Hrec.
    { apply IH. rewrite length_app. change (length [curr]) with 1. lia. }
    assert (forall x, x ∈ S ++ [curr] -> reachable adj0 x curr) as Hstack1.
    { intros x [Hx| ->%list_elem_of_singleton]%elem_of_app; [auto|apply rtc_refl]. }
    assert (curr ∈ S ++ [curr]) as Hin
      by (apply elem_of_app; right; now apply list_elem_of_singleton).
    pose proof (visit_children_spec _ curr _ Hrec Hin Hstack1 Hroot
                  (successors adj0 curr) adj1 _ F I1 (fun c H => H)) as Hloop.
    destruct (visit_children (is_cyclic budget) curr (successors adj0 curr)
                (adj1, V ∪ {[curr]}, S ++ [curr]))
      as [[[[adj' V'] S']|e]|]; [|exact Hloop|exact Hloop].
    destruct Hloop as (-> & F' & I' & Hall & Hsub).
    rewrite removelast_last. split; [reflexivity|]. split; [reflexivity|].
    exists (curr :: F'). split; [|split].
    + apply inv_pop; assumption.
    + left.
    + intros x Hx. right. auto.
Qed.

(** The traversal from the root never runs out of budget.  It stops with a
    back edge, or it returns [False] having visited exactly the nodes
    reachable from the root, none of which lies on a cycle. *)
Lemma traverse_spec :
  match traverse adj0 root with
  | None => False
  | Some (Raise e) => bad e
  | Some (Return (b, (adj', V', S'))) =>
      b = false /\ S' = [] /\ extends adj0 adj' /\
      (forall x, x ∈ V' <-> reachable adj0 root x) /\
      (forall x, reachable adj0 root x -> ~ on_cycle adj0 x)
  end.
Proof.
  unfold traverse, recursion_budget.
  assert (inv adj0 ∅ [] []) as I0.
  { split.
    - apply extends_refl.
    - intros x. rewrite !elem_of_nil, elem_of_empty. tauto.
    - intros x Hx. now apply elem_of_nil in Hx.
    - constructor.
    - constructor.
    - intros x Hx. now apply elem_of_nil in Hx.
    - intros x Hx. set_solver. }
  assert (length names < S (length names) + length (@nil string)) as Hlen
    by (simpl; lia).
  pose proof (is_cyclic_spec _ _ Hlen root adj0 ∅ [] I0) as H.
  destruct (is_cyclic (S (length names)) root (adj0, ∅, []))
    as [[[b [[adj' V'] S']]|e]|].
  - destruct H as (-> & -> & F' & I' & HrF & _).
    + set_solver.
    + left.
    + intros x Hx. now apply elem_of_nil in Hx.
    + apply rtc_refl.
    + split; [reflexivity|]. split; [reflexivity|].
      destruct I' as [Ig Iv Id Io Is In Ir].
      assert (forall x, reachable adj0 root x -> x ∈ F') as Hclosed.
      { intros x Hx. eapply finished_order_closed; eassumption. }
      split; [assumption|]. split.
      * intros x. split; [apply Ir|]. intros Hx. apply Iv. right. auto.
      * intros x Hx. eapply finished_order_acyclic; [exact Io|auto].
  - apply H; [set_solver|left| |apply rtc_refl].
    intros x Hx. now apply elem_of_nil in Hx.
  - apply H; [set_solver|left| |apply rtc_refl].
    intros x Hx. now apply elem_of_nil in Hx.
Qed.

End traversal.

(** ** The predecessor map and the expansion of ranked predecessors *)

Section resolver.
Implicit Types (adj pre : graph) (ranks : rank_table) (target : string).

Lemma predecessors_inner func1 succs pre target :
  successors
    (fold_left (fun pre func2 => defaultdict_append func2 func1 pre) succs pre)
    target =
  successors pre target ++
  flat_map (fun func2 => if decide (func2 = target) then [func1] else []) succs.
Proof.
  revert pre. induction succs as [|func2 succs IH]; intros pre; cbn [fold_left flat_map].
  - now rewrite app_nil_r.
  - rewrite IH, successors_defaultdict_append, <- app_assoc. f_equal. f_equal.
    destruct (decide (target = func2)) as [->|Hne].
    + now rewrite decide_True.
    + rewrite decide_False; [reflexivity|congruence].
Qed.

Lemma predecessors_outer adj pre target :
  successors
    (fold_left (fun pre '(func1, succs) =>
                  fold_left (fun pre func2 => defaultdict_append func2 func1 pre)
                            succs pre) adj pre)
    target =
  successors pre target ++ predecessors adj target.
Proof.
  unfold predecessors. revert pre.
  induction adj as [|[func1 succs] adj IH]; intros pre; cbn [fold_left flat_map].
  - now rewrite app_nil_r.
  - now rewrite IH, predecessors_inner, <- app_assoc.
Qed.

(** Reading the predecessor map at [target] gives [predecessors]. *)
Lemma predecessors_list_get adj target :
  (defaultdict_get target (predecessors_list adj)).1 = predecessors adj target.
Proof.
  rewrite defaultdict_get_value. unfold predecessors_list.
  now rewrite predecessors_outer.
Qed.

Lemma real_pre_flat_map ranks curr_pre :
  real_pre ranks curr_pre = flat_map (expand ranks) curr_pre.
Proof.
  unfold real_pre. rewrite <- (app_nil_l (flat_map _ _)).
  generalize (@nil string) as acc. intros acc. revert acc.
  induction curr_pre as [|p l IH]; intros acc; cbn [fold_left flat_map].
  - now rewrite app_nil_r.
  - now rewrite IH, app_assoc.
Qed.



End resolver.

(** ** Root selection and the reachability check *)

Section selection.
Implicit Types (ranks : rank_table) (funcs : list string) (visited : gset string).

(** The scan passes over actions with a non-zero rank and stops at the
    first one of rank 0. *)
Lemma find_first_func_first funcs ranks r :
  first_such (fun f => dict_get f ranks = Some 0%Z) funcs r ->
  (forall f, f ∈ funcs -> is_Some (dict_get f ranks)) ->
  find_first_func funcs ranks = Return (Some r).
Proof.
  intros (l1 & l2 & -> & Hr & Hbefore) Hall.
  induction l1 as [|f l1 IH]; cbn [app find_first_func].
  - rewrite Hr. now rewrite bool_decide_true.
  - destruct (Hall f) as [z Hz]; [left|]. rewrite Hz.
    rewrite bool_decide_false.
    2:{ intros ->. apply (Hbefore f); [left|assumption]. }
    apply IH.
    + intros y Hy. apply Hbefore. now right.
    + intros y Hy. apply Hall. now right.
Qed.

Lemma find_first_func_Some funcs ranks r :
  find_first_func funcs ranks = Return (Some r) ->
  first_such (fun f => dict_get f ranks = Some 0%Z) funcs r.
Proof.
  induction funcs as [|f funcs IH]; cbn [find_first_func]; [discriminate|].
  destruct (dict_get f ranks) as [z|] eqn:E; [|discriminate].
  case_bool_decide as Hz.
  - intros [= <-]. subst z. exists [], funcs. repeat split; [assumption|].
    intros y Hy. now apply elem_of_nil in Hy.
  - intros (l1 & l2 & -> & Hr & Hbefore)%IH.
    exists (f :: l1), l2. repeat split; [assumption|].
    intros y [->|Hy]%elem_of_cons; [congruence|auto].
Qed.

(** When every action has a rank and none has rank 0, no root is found. *)
Lemma find_first_func_None funcs ranks :
  (forall f, f ∈ funcs -> exists z, dict_get f ranks = Some z /\ z <> 0%Z) ->
  find_first_func funcs ranks = Return None.
Proof.
  induction funcs as [|f funcs IH]; intros Hall; cbn [find_first_func]; [reflexivity|].
  destruct (Hall f) as (z & -> & Hz); [left|].
  rewrite bool_decide_false by assumption.
  apply IH. intros y Hy. apply Hall. now right.
Qed.

(** An action without a rank that comes before every action of rank 0
    makes the scan fail on a missing key. *)
Lemma find_first_func_KeyError l1 f l2 ranks :
  dict_get f ranks = None ->
  (forall g, g ∈ l1 -> dict_get g ranks <> Some 0%Z) ->
  exists k, find_first_func (l1 ++ f :: l2) ranks = Raise (KeyError k) /\
            dict_get k ranks = None.
Proof.
  intros Hf. induction l1 as [|g l1 IH]; intros Hbefore; cbn [app find_first_func].
  - rewrite Hf. now exists f.
  - destruct (dict_get g ranks) as [z|] eqn:E.
    + rewrite bool_decide_false.
      2:{ intros ->. apply (Hbefore g); [left|assumption]. }
      apply IH. intros y Hy. apply Hbefore. now right.
    + now exists g.
Qed.


Lemma check_visited_first funcs visited f :
  first_such (fun f => dot_prefix f ∉ visited) funcs f ->
  check_visited funcs visited = Raise (UnreachableAction f).
Proof.
  unfold check_visited. intros (l1 & l2 & -> & Hf & Hbefore).
  induction l1 as [|g l1 IH]; cbn [app for_each].
  - now rewrite bool_decide_true.
  - rewrite bool_decide_false.
    2:{ apply (Hbefore g). left. }
    simpl. apply IH. intros y Hy. apply Hbefore. now right.
Qed.

(** Some declared action that fails a decidable test is the first to. *)
Lemma first_such_exists {A} (P : A -> Prop) `{forall x, Decision (P x)}
    (l : list A) x :
  x ∈ l -> P x -> exists y, first_such P l y.
Proof.
  induction l as [|a l IH]; intros Hin Hx; [now apply elem_of_nil in Hin|].
  destruct (decide (P a)) as [Ha|Ha].
  - exists a, [], l. repeat split; [assumption|].
    intros y Hy. now apply elem_of_nil in Hy.
  - apply elem_of_cons in Hin as [->|Hin]; [contradiction|].
    destruct (IH Hin Hx) as (y & l1 & l2 & -> & Hy & Hbefore).
    exists y, (a :: l1), l2. repeat split; [assumption|].
    intros z [->|Hz]%elem_of_cons; auto.
Qed.

End selection.

(** ** [check_dag] stage by stage *)

Section check_dag_stages.
Implicit Types (p : payload) (adj : graph) (ranks : rank_table).

Lemma check_dag_selected p adj ranks root :
  FunctionInvoke p ∈ dict_keys (ActionList p) ->
  build_adjacency_graph p = Return (adj, ranks) ->
  find_first_func (dict_keys (ActionList p)) ranks = Return (Some root) ->
  check_dag p =
    match traverse adj root with
    | None => None
    | Some (Raise e) => Some (Raise e)
    | Some (Return (_, (adj', visited, _))) =>
        Some (_ ← check_visited (dict_keys (ActionList p)) visited;
              Return (real_pre ranks
                        (defaultdict_get (FunctionInvoke p)
                                         (predecessors_list adj')).1))
    end.
Proof.
  intros Ht Hb Hf. unfold check_dag.
  apply dict_mem_true in Ht. rewrite Ht, Hb, Hf. reflexivity.
Qed.

(** After a traversal that returned, the result is decided by the
    reachability check alone. *)
Lemma check_dag_traversed p adj ranks root b adj' visited stack :
  FunctionInvoke p ∈ dict_keys (ActionList p) ->
  build_adjacency_graph p = Return (adj, ranks) ->
  find_first_func (dict_keys (ActionList p)) ranks = Return (Some root) ->
  traverse adj root = Some (Return (b, (adj', visited, stack))) ->
  check_dag p =
    Some (_ ← check_visited (dict_keys (ActionList p)) visited;
          Return (flat_map (expand ranks) (predecessors adj (FunctionInvoke p)))).
Proof.
  intros Ht Hb Hf Htr. rewrite (check_dag_selected _ _ _ _ Ht Hb Hf), Htr.
  pose proof (traverse_spec adj root) as Hs. rewrite Htr in Hs.
  destruct Hs as (_ & _ & Hext & _).
  now rewrite predecessors_list_get, real_pre_flat_map,
    (extends_predecessors _ _ _ Hext).
Qed.

(** Validation always comes to an end within the budget. *)
Lemma check_dag_terminates p : check_dag p <> None.
Proof.
  unfold check_dag.
  destruct (negb _); [discriminate|].
  destruct (build_adjacency_graph p) as [[adj ranks]|]; [|discriminate].
  destruct (find_first_func _ ranks) as [[root|]|]; try discriminate.
  pose proof (traverse_spec adj root) as Hs.
  destruct (traverse adj root) as [[[b [[adj' V'] S']]|e]|];
    [discriminate|discriminate|contradiction].
Qed.

(** When every declared action has a rank and none has rank 0, validation
    fails with [NoRoot]. *)
Lemma check_dag_no_root p adj ranks :
  FunctionInvoke p ∈ dict_keys (ActionList p) ->
  build_adjacency_graph p = Return (adj, ranks) ->
  (forall f, f ∈ dict_keys (ActionList p) ->
     exists z, dict_get f ranks = Some z /\ z <> 0%Z) ->
  check_dag p = Some (Raise NoRoot).
Proof.
  intros Ht Hb Hall. unfold check_dag.
  apply dict_mem_true in Ht.
  now rewrite Ht, Hb, (find_first_func_None _ _ Hall).
Qed.

End check_dag_stages.

(** ** The dictionaries of a run keep distinct keys *)

Section distinct_keys.
Implicit Types (adj : graph) (ranks : rank_table).

(** With distinct keys, [for k in d: ... d[k] ...] visits the entries. *)
Lemma entries_lookup adj :
  NoDup (dict_keys adj) ->
  map (fun k => (k, successors adj k)) (dict_keys adj) = adj.
Proof.
  intros Hnd.
  assert (forall l, (forall e, e ∈ l -> e ∈ adj) ->
                    map (fun k => (k, successors adj k)) (dict_keys l) = l) as H.
  { induction l as [|[k v] l IH]; intros Hsub; [reflexivity|].
    cbn [dict_keys fmap list_fmap map fst]. unfold successors at 1.
    rewrite (dict_get_In_NoDup k v adj Hnd) by (apply Hsub; left).
    simpl. f_equal. apply IH. intros e He. apply Hsub. now right. }
  now apply H.
Qed.

Lemma defaultdict_get_NoDup k adj :
  NoDup (dict_keys adj) -> NoDup (dict_keys (defaultdict_get k adj).2).
Proof.
  intros H. unfold defaultdict_get.
  destruct (dict_get k adj); [assumption|]. now apply dict_set_NoDup.
Qed.

Lemma defaultdict_append_NoDup k x adj :
  NoDup (dict_keys adj) -> NoDup (dict_keys (defaultdict_append k x adj)).
Proof.
  intros H. unfold defaultdict_append.
  pose proof (defaultdict_get_NoDup k adj H) as H'.
  destruct (defaultdict_get k adj) as [l d']. now apply dict_set_NoDup.
Qed.

Lemma default_ranks_NoDup adj ranks :
  NoDup (dict_keys ranks) -> NoDup (dict_keys (default_ranks adj ranks)).
Proof.
  unfold default_ranks. generalize (dict_keys adj) as ks. intros ks.
  revert ranks. induction ks as [|k ks IH]; intros ranks H; cbn [fold_left];
    [assumption|].
  apply IH. destruct (dict_mem k ranks); [assumption|now apply dict_set_NoDup].
Qed.

(** The graph and the rank table that the builder returns. *)
Lemma build_adjacency_graph_NoDup p adj ranks :
  build_adjacency_graph p = Return (adj, ranks) ->
  NoDup (dict_keys adj) /\ NoDup (dict_keys ranks).
Proof.
  intros (ranks0 & Hrun & ->)%build_adjacency_graph_Return.
  assert (NoDup (dict_keys adj) /\ NoDup (dict_keys ranks0)) as [Ha Hr].
  { unfold process_edges in Hrun.
    refine (for_each_invariant
              (fun st : graph * rank_table =>
                 NoDup (dict_keys st.1) /\ NoDup (dict_keys st.2))
              _ _ _ (adj, ranks0) _ _ Hrun).
    - intros [func reference] [adj1 ranks1] [adj2 ranks2] _ [H1 H2] Hstep.
      apply process_action_Return in Hstep as (name & rank & _ & _ & -> & ->).
      split; [now apply defaultdict_append_NoDup|now apply dict_set_NoDup].
    - split; constructor. }
  split; [assumption|now apply default_ranks_NoDup].
Qed.

(** The traversal hands on a graph with distinct keys. *)
Lemma visit_children_NoDup rec curr :
  (forall c adj V S b adj' V' S',
     NoDup (dict_keys adj) ->
     rec c (adj, V, S) = Some (Return (b, (adj', V', S'))) ->
     NoDup (dict_keys adj')) ->
  forall children adj V S adj' V' S',
    NoDup (dict_keys adj) ->
    visit_children rec curr children (adj, V, S) = Some (Return (adj', V', S')) ->
    NoDup (dict_keys adj').
Proof.
  intros Hrec. induction children as [|child rest IH];
    intros adj V S adj' V' S' Hnd; cbn [visit_children].
  - now intros [= <- _ _].
  - case_bool_decide.
    + destruct (rec child (adj, V, S)) as [[[[] [[adj1 V1] S1]]|]|] eqn:E;
        try discriminate.
      cbn [snd]. case_bool_decide; [discriminate|].
      apply IH. eapply Hrec; eassumption.
    + case_bool_decide; [discriminate|]. now apply IH.
Qed.

Lemma is_cyclic_NoDup budget :
  forall curr adj V S b adj' V' S',
    NoDup (dict_keys adj) ->
    is_cyclic budget curr (adj, V, S) = Some (Return (b, (adj', V', S'))) ->
    NoDup (dict_keys adj').
Proof.
  induction budget as [|budget IH]; intros curr adj V S b adj' V' S' Hnd;
    cbn [is_cyclic]; [discriminate|].
  case_bool_decide; [now intros [= _ <- _ _]|].
  pose proof (defaultdict_get_NoDup curr adj Hnd) as Hnd1.
  destruct (defaultdict_get curr adj) as [children adj1]. simpl in Hnd1.
  destruct (visit_children _ curr children _) as [[[[adj2 V2] S2]|]|] eqn:E;
    try discriminate.
  intros [= _ <- _ _].
  eapply (visit_children_NoDup _ curr IH); eassumption.
Qed.

End distinct_keys.

(** * The claims *)

(** ** Entry point *)

(** C5: a workflow definition whose [FunctionInvoke] is not a key of
    [ActionList] fails with [InvalidEntryPoint], whatever its graph. *)
Theorem check_dag_invalid_entry_point (p : payload) :
  FunctionInvoke p ∉ dict_keys (ActionList p) ->
  check_dag p = Some (Raise InvalidEntryPoint).
Proof.
  intros H. unfold check_dag.
  assert (dict_mem (FunctionInvoke p) (ActionList p) = false) as ->; [|reflexivity].
  apply not_true_iff_false. now rewrite dict_mem_true.
Qed.

Lemma check_dag_invalid_entry_point_witness :
  check_dag wf_missing_target = Some (Raise InvalidEntryPoint).
Proof.
  apply (check_dag_invalid_entry_point wf_missing_target).
  compute_done.
Defined.

(** ** Cycles *)



(** ** Reachability *)




(** ** Valid workflows *)


Section wf_ambiguous_graph.

Abbreviation height := diamond_height.







End wf_ambiguous_graph.



(** ** [int] after [str] *)

Module PyIntFacts.

Lemma uint_nil_or_not (d : Decimal.uint) : d = Decimal.Nil \/ d <> Decimal.Nil.
Proof. destruct d; (now left) || (now right). Qed.

Lemma digit_char c d :
  Py.digit c = Some d -> Py.is_space c = false /\ c <> "_"%char.
Proof.
  destruct c as [[] [] [] [] [] [] [] []]; simpl; try discriminate;
    intros _; split; (reflexivity || discriminate).
Qed.

Lemma numeral_cons c s d :
  Py.digit c = Some d -> starts_with_digit s ->
  Py.numeral (String c s) = option_map d (Py.numeral s).
Proof.
  intros Hc Hs. destruct s as [|c' s']; [contradiction|].
  destruct Hs as (_ & Hsp & Hus).
  cbn [Py.numeral]. rewrite Hc.
  destruct (Ascii.eqb_spec c' "_"); [contradiction|].
  now rewrite Hsp.
Qed.

Lemma string_of_uint_starts d :
  d <> Decimal.Nil -> starts_with_digit (NilEmpty.string_of_uint d).
Proof.
  destruct d; [congruence|..]; intros _; simpl;
    (split; [now eexists|split; [reflexivity|discriminate]]).
Qed.

Lemma numeral_string_of_uint d :
  d <> Decimal.Nil -> Py.numeral (NilEmpty.string_of_uint d) = Some d.
Proof.
  induction d as [|d IH|d IH|d IH|d IH|d IH|d IH|d IH|d IH|d IH|d IH];
    intros Hd; [congruence|..];
    (destruct (uint_nil_or_not d) as [->|Hne]; [reflexivity|];
     cbn [NilEmpty.string_of_uint];
     erewrite numeral_cons;
       [|reflexivity|apply string_of_uint_starts; exact Hne];
     now rewrite (IH Hne)).
Qed.

Lemma count_string_of_uint d : Py.count "(" (NilEmpty.string_of_uint d) = 0.
Proof. induction d; simpl; auto. Qed.

Lemma to_uint_nonnil p : Pos.to_uint p <> Decimal.Nil.
Proof. apply DecimalPos.Unsigned.to_uint_nonnil. Qed.

Lemma of_to_uint p : Z.of_uint (Pos.to_uint p) = Zpos p.
Proof. unfold Z.of_uint. now rewrite DecimalPos.Unsigned.of_to. Qed.

Lemma lstrip_digit s : starts_with_digit s -> Py.lstrip s = s.
Proof.
  destruct s as [|c s]; [contradiction|]. intros (_ & Hsp & _).
  simpl. now rewrite Hsp.
Qed.

(** [int(str(z)) == z]. *)
Lemma int_str z : Py.int (Py.str z) = Some z.
Proof.
  unfold Py.str, Py.int. destruct z as [|p|p]; [reflexivity| |].
  - cbn [Z.to_int NilZero.string_of_int].
    pose proof (to_uint_nonnil p) as Hn. pose proof (of_to_uint p) as Hv.
    pose proof (numeral_string_of_uint _ Hn) as Hnum.
    pose proof (string_of_uint_starts _ Hn) as Hst.
    unfold NilZero.string_of_uint.
    destruct (Pos.to_uint p) as [|d|d|d|d|d|d|d|d|d|d]; [congruence|..];
      (rewrite (lstrip_digit _ Hst);
       cbn [NilEmpty.string_of_uint] in *; rewrite Hnum; simpl; now rewrite Hv).
  - cbn [Z.to_int NilZero.string_of_int Py.lstrip].
    change (Py.is_space "-") with false. cbv iota.
    pose proof (to_uint_nonnil p) as Hn. pose proof (of_to_uint p) as Hv.
    pose proof (numeral_string_of_uint _ Hn) as Hnum.
    unfold NilZero.string_of_uint.
    destruct (Pos.to_uint p) as [|d|d|d|d|d|d|d|d|d|d]; [congruence|..];
      (rewrite Hnum; simpl; now rewrite Hv).
Qed.

Lemma count_str z : Py.count "(" (Py.str z) = 0.
Proof.
  unfold Py.str. destruct z as [|p|p]; [reflexivity| |];
    cbn [Z.to_int NilZero.string_of_int]; unfold NilZero.string_of_uint.
  - destruct (Pos.to_uint p) eqn:E; try reflexivity; rewrite <- E;
      apply count_string_of_uint.
  - cbn [Py.count]. change (Ascii.eqb "-" "(") with false. cbv iota.
    destruct (Pos.to_uint p) eqn:E; try reflexivity; rewrite <- E;
      apply count_string_of_uint.
Qed.

End PyIntFacts.

(** ** The parser *)

(** C2 does not hold of the code: the content between the parentheses of
    [B(x)] is not numeric, and [extract_rank] raises [ValueError] instead
    of returning the whole string with rank 1, as it does for the other
    malformed references [B(x] and [B((1)].  The exception is not caught:
    validation of a workflow that holds the reference ends with it. *)
Theorem extract_rank_non_numeric :
  extract_rank "B(x)" = Raise (ValueError "x") /\
  extract_rank "B(x" = Return ("B(x", 1%Z) /\
  extract_rank "B((1)" = Return ("B((1)", 1%Z) /\
  build_adjacency_graph wf_non_numeric = Raise (ValueError "x") /\
  check_dag wf_non_numeric = Some (Raise (ValueError "x")).
Proof. repeat split; vm_compute; reflexivity. Qed.

(** ** The graph builder *)



(** C4 does not hold of the code: [B] ends with rank 3 and has an edge
    from [A] and an edge from [C], and validation succeeds.  The builder
    only refuses a second edge when the rank was recorded before it; with
    the two references to [B] in the other order ([wf_ambiguous]) the same
    graph is refused. *)
Theorem late_rank_two_predecessors :
  build_adjacency_graph wf_late_rank =
    Return ([("A", ["B"; "C"]); ("C", ["B"])],
            [("B", 3%Z); ("C", 1%Z); ("A", 0%Z)]) /\
  in_degree [("A", ["B"; "C"]); ("C", ["B"])] "B" = 2 /\
  check_dag wf_late_rank = Some (Return ["A"; "C"]) /\
  check_dag wf_ambiguous = Some (Raise AmbiguousRankedPredecessor).
Proof. repeat split; vm_compute; reflexivity. Qed.

(** ** Root selection *)

(** C8 does not hold of the code: no action of [wf_isolated] has a rank
    table entry of 0, and in [wf_no_rank_first] the first action of rank 0
    is [A]; both stop with [KeyError] on the action [C], which has no
    rank table entry, instead of failing with [NoRoot] or selecting [A]. *)
Theorem root_selection_missing_rank :
  build_adjacency_graph wf_isolated = Return ([], []) /\
  check_dag wf_isolated = Some (Raise (KeyError "C")) /\
  build_adjacency_graph wf_no_rank_first =
    Return ([("A", ["B"])], [("B", 1%Z); ("A", 0%Z)]) /\
  check_dag wf_no_rank_first = Some (Raise (KeyError "C")).
Proof. repeat split; vm_compute; reflexivity. Qed.

Section key_error.
Implicit Types (p : payload) (adj : graph) (ranks : rank_table).

(** With distinct keys, an action owns only the references of its own
    [InvokeNext]. *)
Lemma edge_refs_owner p l1 f act l2 reference :
  payload_wf p -> ActionList p = l1 ++ (f, act) :: l2 ->
  (f, reference) ∈ edge_refs p -> reference ∈ references (InvokeNext act).
Proof.
  intros Hwf Hal Hin. unfold edge_refs in Hin.
  apply list_elem_of_In, in_flat_map in Hin as ([func a] & Ha & Hr).
  apply in_map_iff in Hr as (r & [= -> ->] & Hr).
  apply list_elem_of_In in Ha.
  assert (dict_get f (ActionList p) = Some a) as H1
    by (now apply dict_get_In_NoDup).
  assert (dict_get f (ActionList p) = Some act) as H2.
  { apply dict_get_In_NoDup; [assumption|]. rewrite Hal.
    apply elem_of_app. right. left. }
  rewrite H1 in H2. injection H2 as ->. now apply list_elem_of_In.
Qed.

End key_error.

(** C9: an action with an empty [InvokeNext] list that no reference names
    has no rank table entry; if no action declared before it has rank 0,
    root selection raises [KeyError] (on it, or on an earlier action that
    has no entry either) and validation ends with that exception. *)
Theorem check_dag_key_error (p : payload) (adj : graph) (ranks : rank_table)
    (l1 l2 : list (string * action)) (f : string) (act : action) :
  payload_wf p ->
  FunctionInvoke p ∈ dict_keys (ActionList p) ->
  build_adjacency_graph p = Return (adj, ranks) ->
  ActionList p = l1 ++ (f, act) :: l2 ->
  InvokeNext act = NextList [] ->
  (forall func reference,
     (func, reference) ∈ edge_refs p -> ~ refers_to reference f) ->
  (forall g, g ∈ dict_keys l1 -> dict_get g ranks <> Some 0%Z) ->
  dict_get f ranks = None /\
  exists k, check_dag p = Some (Raise (KeyError k)) /\ dict_get k ranks = None.
Proof.
  intros Hwf Ht Hb Hal Hnext Href Hbefore.
  assert (dict_get f ranks = None) as Hf.
  { apply (build_no_rank p adj); [assumption| |assumption].
    intros reference Hin.
    apply (edge_refs_owner _ _ _ _ _ _ Hwf Hal) in Hin.
    rewrite Hnext in Hin. now apply elem_of_nil in Hin. }
  split; [assumption|].
  destruct (find_first_func_KeyError (dict_keys l1) f (dict_keys l2) ranks Hf Hbefore)
    as (k & Hk & Hnone).
  exists k. split; [|assumption].
  assert (dict_keys (ActionList p) = dict_keys l1 ++ f :: dict_keys l2) as Hkeys
    by (rewrite Hal; unfold dict_keys; now rewrite fmap_app).
  rewrite <- Hkeys in Hk.
  unfold check_dag. apply dict_mem_true in Ht. now rewrite Ht, Hb, Hk.
Qed.

Lemma check_dag_key_error_witness :
  dict_get "C" [("B", 1%Z); ("A", 0%Z)] = None /\
  exists k, check_dag wf_no_rank_first = Some (Raise (KeyError k)) /\
            dict_get k [("B", 1%Z); ("A", 0%Z)] = None.
Proof.
  apply (check_dag_key_error wf_no_rank_first [("A", ["B"])]
           [("B", 1%Z); ("A", 0%Z)] []
           [("A", invoking (NextStr "B")); ("B", invoking (NextList []))]
           "C" (invoking (NextList []))).
  - unfold payload_wf. compute_done.
  - compute_done.
  - vm_compute. reflexivity.
  - reflexivity.
  - reflexivity.
  - intros func reference Hin [rank Hr].
    apply list_elem_of_In in Hin. simpl in Hin.
    destruct Hin as [[= <- <-]|[]]. vm_compute in Hr. discriminate.
  - intros g Hg. now apply elem_of_nil in Hg.
Defined.

(** ** Ranks that are not positive *)

Section last_reference.
Implicit Types (p : payload) (adj : graph) (ranks : rank_table).

Lemma find_first_func_at l1 r l2 ranks :
  dict_get r ranks = Some 0%Z ->
  (forall g, g ∈ l1 -> exists z, dict_get g ranks = Some z /\ z <> 0%Z) ->
  find_first_func (l1 ++ r :: l2) ranks = Return (Some r).
Proof.
  intros Hr. induction l1 as [|g l1 IH]; intros Hbefore; cbn [app find_first_func].
  - rewrite Hr. now rewrite bool_decide_true.
  - destruct (Hbefore g) as (z & -> & Hz); [left|].
    rewrite bool_decide_false by assumption.
    apply IH. intros y Hy. apply Hbefore. now right.
Qed.

(** The rank table ends with the rank of the last reference to a name,
    and the graph keeps the edge of that reference. *)
Lemma build_last_reference p adj ranks es1 func reference es2 name rank :
  build_adjacency_graph p = Return (adj, ranks) ->
  edge_refs p = es1 ++ (func, reference) :: es2 ->
  extract_rank reference = Return (name, rank) ->
  (forall f r, (f, r) ∈ es2 -> ~ refers_to r name) ->
  dict_get name ranks = Some rank /\ edge adj func name.
Proof.
  intros (ranks0 & Hrun & ->)%build_adjacency_graph_Return Hes Hparse Hlast.
  rewrite Hes, process_edges_app in Hrun.
  destruct (process_edges es1 ([], [])) as [[adj1 ranks1]|]; simpl in Hrun;
    [|discriminate].
  rewrite process_edges_cons in Hrun.
  destruct (process_action func reference (adj1, ranks1)) as [[adj2 ranks2]|] eqn:E;
    simpl in Hrun; [|discriminate].
  apply process_action_Return in E as (name' & rank' & Hparse' & _ & -> & ->).
  rewrite Hparse in Hparse'. injection Hparse' as <- <-.
  split.
  - rewrite default_ranks_get.
    rewrite (process_edges_rank_stable _ _ _ _ _ _ Hrun Hlast).
    now rewrite dict_get_set_eq.
  - apply (process_edges_successors_mono _ _ _ _ _ _ _ Hrun).
    rewrite successors_defaultdict_append, decide_True by reflexivity.
    apply elem_of_app. right. left.
Qed.

End last_reference.

(** C10: the parser accepts an integer that is not positive: for the
    reference [name(z)] with [z <= 0] it returns the rank [z]; the builder
    records that rank in the rank table (unless [name] already carries a
    rank above 1); and when [z] is 0 and the reference is the last one that
    names [name], the action has rank 0 after the build and is selected as
    the root if every action declared before it has a non-zero rank, though
    the graph has an edge into it. *)
Theorem non_positive_rank (name : string) (z : Z) :
  Py.count "(" name = 0 -> (z <= 0)%Z ->
  extract_rank (ranked_reference name z) = Return (name, z) /\
  (forall func adj ranks,
     rank_gt_1 name ranks = false ->
     process_action func (ranked_reference name z) (adj, ranks) =
       Return (defaultdict_append func name adj, dict_set name z ranks)) /\
  (forall p adj ranks func es1 es2 l1 l2,
     z = 0%Z ->
     build_adjacency_graph p = Return (adj, ranks) ->
     edge_refs p = es1 ++ (func, ranked_reference name z) :: es2 ->
     (forall f r, (f, r) ∈ es2 -> ~ refers_to r name) ->
     dict_keys (ActionList p) = l1 ++ name :: l2 ->
     (forall g, g ∈ l1 -> exists r, dict_get g ranks = Some r /\ r <> 0%Z) ->
     dict_get name ranks = Some 0%Z /\
     edge adj func name /\
     find_first_func (dict_keys (ActionList p)) ranks = Return (Some name)).
Proof.
  intros Hname Hz.
  assert (extract_rank (ranked_reference name z) = Return (name, z)) as Hparse.
  { unfold ranked_reference.
    rewrite extract_rank_parenthesised by (auto using PyIntFacts.count_str).
    now rewrite PyIntFacts.int_str. }
  split; [assumption|]. split.
  - intros func adj ranks Hr. unfold process_action. rewrite Hparse. simpl.
    now rewrite Hr.
  - intros p adj ranks func es1 es2 l1 l2 -> Hb Hes Hlast Hkeys Hbefore.
    destruct (build_last_reference _ _ _ _ _ _ _ _ _ Hb Hes Hparse Hlast)
      as [Hrank Hedge].
    split; [assumption|]. split; [assumption|].
    rewrite Hkeys. now apply find_first_func_at.
Qed.

Lemma non_positive_rank_witness :
  extract_rank "B(0)" = Return ("B", 0%Z) /\
  dict_get "B" [("B", 0%Z); ("A", 0%Z)] = Some 0%Z /\
  edge [("A", ["B"])] "A" "B" /\
  find_first_func (dict_keys (ActionList wf_rank_zero)) [("B", 0%Z); ("A", 0%Z)] =
    Return (Some "B").
Proof.
  destruct (non_positive_rank "B" 0 eq_refl (Z.le_refl 0)) as (Hparse & _ & Hroot).
  split; [exact Hparse|].
  apply (Hroot wf_rank_zero [("A", ["B"])] [("B", 0%Z); ("A", 0%Z)] "A"
               [] [] [] ["A"]).
  - reflexivity.
  - vm_compute. reflexivity.
  - vm_compute. reflexivity.
  - intros f r Hin. now apply elem_of_nil in Hin.
  - vm_compute. reflexivity.
  - intros g Hg. now apply elem_of_nil in Hg.
Defined.

(** * The model on small workflows *)

Example chain_resolves : check_dag wf_chain = Some (Return ["A"]).
Proof. vm_compute. reflexivity. Qed.

Example ranked_chain_expands :
  check_dag wf_ranked_chain = Some (Return ["B.1"; "B.2"; "B.3"]).
Proof. vm_compute. reflexivity. Qed.

Example fanout_expands :
  check_dag wf_fanout = Some (Return ["B.1"; "B.2"; "C.1"; "C.2"]).
Proof. vm_compute. reflexivity. Qed.

Example conditional_branches_are_edges :
  build_adjacency_graph wf_conditional =
    Return ([("A", ["B"; "C"])], [("B", 1%Z); ("C", 1%Z); ("A", 0%Z)]) /\
  check_dag wf_conditional = Some (Return ["A"]).
Proof. split; vm_compute; reflexivity. Qed.

Example unreachable_action :
  check_dag wf_unreachable = Some (Raise (UnreachableAction "C")).
Proof. vm_compute. reflexivity. Qed.

Example loop_below_root :
  check_dag wf_loop = Some (Raise (CyclicGraph "C" "B")).
Proof. vm_compute. reflexivity. Qed.

(** Both actions of a two-node cycle are referred to, so both have rank 1
    and no root is found. *)
Example two_cycle_has_no_root : check_dag wf_two_cycle = Some (Raise NoRoot).
Proof. vm_compute. reflexivity. Qed.

Example int_literals :
  Py.int " 1_0 " = Some 10%Z /\ Py.int "-3" = Some (-3)%Z /\
  Py.int "+07" = Some 7%Z /\ Py.int "" = None /\ Py.int "1__0" = None /\
  Py.int "3)" = None /\ Py.int "x" = None.
Proof. repeat split. Qed.

(** * Further properties of the code *)

(** ** The graph and the rank table that the builder returns *)

Section builder_result.
Implicit Types (p : payload) (adj : graph) (ranks : rank_table)
  (es : list (string * string)).

Lemma refers_to_inj reference name name' rank :
  refers_to reference name -> extract_rank reference = Return (name', rank) ->
  name' = name.
Proof. intros [k Hk] H. rewrite Hk in H. now injection H. Qed.

Lemma referred_names_app es1 es2 f :
  referred_names (es1 ++ es2) f = referred_names es1 f ++ referred_names es2 f.
Proof. unfold referred_names. apply flat_map_app. Qed.

Lemma referred_names_elem es u v :
  v ∈ referred_names es u <->
  exists reference, (u, reference) ∈ es /\ refers_to reference v.
Proof.
  unfold referred_names. rewrite list_elem_of_In, in_flat_map. split.
  - intros ([func reference] & Hin & Hv). apply list_elem_of_In in Hin.
    destruct (decide (func = u)) as [->|]; [|destruct Hv].
    destruct (extract_rank reference) as [[name rank]|] eqn:E; [|destruct Hv].
    destruct Hv as [<-|[]]. exists reference. split; [assumption|now exists rank].
  - intros (reference & Hin & rank & Hr). exists (u, reference).
    split; [now apply list_elem_of_In|].
    rewrite decide_True by reflexivity. rewrite Hr. now left.
Qed.

Lemma edge_refs_elem p u reference :
  (u, reference) ∈ edge_refs p <->
  exists act, (u, act) ∈ ActionList p /\ reference ∈ references (InvokeNext act).
Proof.
  unfold edge_refs. rewrite list_elem_of_In, in_flat_map. split.
  - intros ([func act] & Hin & Hr). apply in_map_iff in Hr as (r & [= -> ->] & Hr).
    exists act. split; now apply list_elem_of_In.
  - intros (act & Hin & Hr). exists (u, act). split; [now apply list_elem_of_In|].
    apply in_map_iff. exists reference. split; [reflexivity|now apply list_elem_of_In].
Qed.

(** What a run of the builder adds to the successors of each name. *)
Lemma process_edges_successors es adj ranks adj' ranks' f :
  process_edges es (adj, ranks) = Return (adj', ranks') ->
  successors adj' f = successors adj f ++ referred_names es f.
Proof.
  revert adj ranks. induction es as [|[func reference] es IH]; intros adj ranks.
  - intros [= <- <-]. now rewrite app_nil_r.
  - rewrite process_edges_cons.
    destruct (process_action func reference (adj, ranks)) as [[adj1 ranks1]|] eqn:E;
      simpl; [|discriminate].
    intros Hrun.
    apply process_action_Return in E as (name & rank & Hp & _ & -> & ->).
    rewrite (IH _ _ Hrun), successors_defaultdict_append, <- app_assoc.
    f_equal. unfold referred_names. cbn [flat_map]. rewrite Hp.
    destruct (decide (f = func)) as [->|Hne].
    + now rewrite decide_True.
    + rewrite decide_False; [reflexivity|congruence].
Qed.

(** A run that returns has parsed every reference. *)
Lemma process_edges_parses es adj ranks adj' ranks' func reference :
  process_edges es (adj, ranks) = Return (adj', ranks') ->
  (func, reference) ∈ es ->
  exists name rank, extract_rank reference = Return (name, rank).
Proof.
  revert adj ranks. induction es as [|[g r] es IH]; intros adj ranks Hrun Hin.
  - now apply elem_of_nil in Hin.
  - rewrite process_edges_cons in Hrun.
    destruct (process_action g r (adj, ranks)) as [[adj1 ranks1]|] eqn:E;
      simpl in Hrun; [|discriminate].
    apply elem_of_cons in Hin as [[= -> ->]|Hin]; [|eauto].
    apply process_action_Return in E as (name & rank & Hp & _). eauto.
Qed.

(** Where an entry of the rank table comes from: it was there before, or
    it is the rank of the last reference to the name. *)
Lemma process_edges_rank_origin es adj ranks adj' ranks' k r :
  process_edges es (adj, ranks) = Return (adj', ranks') ->
  dict_get k ranks' = Some r ->
  (dict_get k ranks = Some r /\
   forall g reference, (g, reference) ∈ es -> ~ refers_to reference k) \/
  last_rank es k r.
Proof.
  revert adj ranks. induction es as [|[func reference] es IH]; intros adj ranks.
  - intros [= <- <-] Hk. left. split; [assumption|].
    intros g reference Hin. now apply elem_of_nil in Hin.
  - rewrite process_edges_cons.
    destruct (process_action func reference (adj, ranks)) as [[adj1 ranks1]|] eqn:E;
      simpl; [|discriminate].
    intros Hrun Hk.
    apply process_action_Return in E as (name & rank & Hp & _ & -> & ->).
    destruct (IH _ _ Hrun Hk) as [[Hget Hno]|(es1 & g & ref & es2 & -> & Hr & Hlast)].
    + rewrite dict_get_set in Hget. destruct (decide (k = name)) as [->|Hne].
      * injection Hget as ->. right. exists [], func, reference, es.
        split; [reflexivity|]. split; assumption.
      * left. split; [assumption|].
        intros g ref [[= -> ->]|Hin]%elem_of_cons Href; [|now apply (Hno g ref)].
        apply Hne. symmetry. eapply refers_to_inj; eassumption.
    + right. exists ((func, reference) :: es1), g, ref, es2.
      split; [reflexivity|]. split; assumption.
Qed.

(** Once a name has a rank above 1, a run that meets another reference to
    it does not return. *)
Lemma process_edges_ranked_stops es adj ranks k r func reference :
  dict_get k ranks = Some r -> (1 < r)%Z ->
  (func, reference) ∈ es -> refers_to reference k ->
  forall st, process_edges es (adj, ranks) <> Return st.
Proof.
  revert adj ranks. induction es as [|[g ref] es IH]; intros adj ranks Hk Hr Hin Href.
  - now apply elem_of_nil in Hin.
  - intros [adj' ranks'] Hrun. rewrite process_edges_cons in Hrun.
    destruct (process_action g ref (adj, ranks)) as [[adj1 ranks1]|] eqn:E;
      simpl in Hrun; [|discriminate].
    apply process_action_Return in E as (name & rank & Hp & Hgt & -> & ->).
    assert (name <> k) as Hne.
    { intros ->. unfold rank_gt_1 in Hgt. rewrite Hk in Hgt.
      rewrite bool_decide_true in Hgt by assumption. discriminate. }
    apply elem_of_cons in Hin as [[= -> ->]|Hin].
    + apply Hne. eapply refers_to_inj; eassumption.
    + eapply (IH (defaultdict_append g name adj) (dict_set name rank ranks));
        [|exact Hr|exact Hin|exact Href|exact Hrun].
      rewrite dict_get_set_ne; [assumption|congruence].
Qed.

(** The errors of a run and where they come from. *)
Lemma process_edges_Raise es adj ranks e :
  process_edges es (adj, ranks) = Raise e ->
  exists es1 func reference es2 adj1 ranks1,
    es = es1 ++ (func, reference) :: es2 /\
    process_edges es1 (adj, ranks) = Return (adj1, ranks1) /\
    ((exists literal, e = ValueError literal /\
                      extract_rank reference = Raise (ValueError literal)) \/
     (e = AmbiguousRankedPredecessor /\
      exists name rank r, extract_rank reference = Return (name, rank) /\
                          dict_get name ranks1 = Some r /\ (1 < r)%Z)).
Proof.
  revert adj ranks. induction es as [|[func reference] es IH]; intros adj ranks;
    [discriminate|].
  rewrite process_edges_cons.
  destruct (process_action func reference (adj, ranks)) as [[adj1 ranks1]|e1] eqn:E;
    simpl.
  - intros Hrun.
    destruct (IH _ _ Hrun) as (es1 & g & ref & es2 & adj2 & ranks2 & -> & Hpre & Hwhy).
    exists ((func, reference) :: es1), g, ref, es2, adj2, ranks2.
    split; [reflexivity|]. split; [|assumption].
    rewrite process_edges_cons, E. exact Hpre.
  - intros [= ->]. exists [], func, reference, es, adj, ranks.
    split; [reflexivity|]. split; [reflexivity|].
    unfold process_action in E.
    destruct (extract_rank reference) as [[name rank]|e0] eqn:Hp; simpl in E.
    + right. unfold rank_gt_1 in E.
      destruct (dict_get name ranks) as [r|] eqn:Hr; [|discriminate].
      case_bool_decide; [|discriminate]. injection E as <-.
      split; [reflexivity|]. now exists name, rank, r.
    + left. injection E as <-. unfold extract_rank in Hp.
      destruct (Py.split "(" reference) as [|a [|b [|c l]]]; try discriminate.
      destruct (negb _); [discriminate|].
      destruct (Py.int _); [discriminate|]. injection Hp as <-.
      eexists. split; reflexivity.
Qed.

End builder_result.

Section builder_result_more.
Implicit Types (p : payload) (adj : graph) (ranks : rank_table)
  (es : list (string * string)).

(** A name that is referred to, or already ranked, is ranked afterwards. *)
Lemma process_edges_ranked es adj ranks adj' ranks' k :
  process_edges es (adj, ranks) = Return (adj', ranks') ->
  is_Some (dict_get k ranks) \/
    (exists g reference, (g, reference) ∈ es /\ refers_to reference k) ->
  is_Some (dict_get k ranks').
Proof.
  revert adj ranks. induction es as [|[func reference] es IH]; intros adj ranks.
  - intros [= <- <-] [H|(g & r & Hin & _)]; [assumption|].
    now apply elem_of_nil in Hin.
  - rewrite process_edges_cons.
    destruct (process_action func reference (adj, ranks)) as [[adj1 ranks1]|] eqn:E;
      simpl; [|discriminate].
    intros Hrun Hk.
    apply process_action_Return in E as (name & rank & Hp & _ & -> & ->).
    apply (IH _ _ Hrun). rewrite dict_get_set.
    destruct (decide (k = name)) as [->|Hne]; [left; now eexists|].
    destruct Hk as [H|(g & r & [[= -> ->]|Hin]%elem_of_cons & Hr)].
    + now left.
    + destruct Hne. symmetry. eapply refers_to_inj; eassumption.
    + right. now exists g, r.
Qed.

(** With distinct keys, the references of [f] in the flattened sequence
    are those of its own [InvokeNext]. *)
Lemma referred_names_owner (l : list (string * action)) f act :
  NoDup (dict_keys l) -> (f, act) ∈ l ->
  referred_names
    (flat_map (fun '(func, a) => map (pair func) (references (InvokeNext a))) l) f =
  referred_names (map (pair f) (references (InvokeNext act))) f.
Proof.
  assert (forall (l' : list (string * action)),
            f ∉ dict_keys l' ->
            referred_names
              (flat_map (fun '(func, a) =>
                           map (pair func) (references (InvokeNext a))) l') f = [])
    as Hnone.
  { induction l' as [|[g a] l' IH]; intros Hf; [reflexivity|].
    cbn [flat_map]. rewrite referred_names_app.
    apply not_elem_of_cons in Hf as [Hne Hf]. simpl in Hne.
    rewrite (IH Hf), app_nil_r.
    induction (references (InvokeNext a)) as [|r rs IHr]; [reflexivity|].
    unfold referred_names in *. cbn [map flat_map].
    rewrite decide_False by congruence. exact IHr. }
  induction l as [|[g a] l IH]; intros Hnd Hin; [now apply elem_of_nil in Hin|].
  cbn [dict_keys fmap list_fmap] in Hnd. apply NoDup_cons in Hnd as [Hg Hnd].
  cbn [flat_map]. rewrite referred_names_app.
  apply elem_of_cons in Hin as [[= -> ->]|Hin].
  - now rewrite (Hnone l Hg), app_nil_r.
  - assert (g <> f) as Hne.
    { intros ->. apply Hg. apply list_elem_of_fmap. now exists (f, act). }
    rewrite (IH Hnd Hin).
    assert (referred_names (map (pair g) (references (InvokeNext a))) f = []) as ->;
      [|reflexivity].
    induction (references (InvokeNext a)) as [|r rs IHr]; [reflexivity|].
    unfold referred_names in *. cbn [map flat_map].
    rewrite decide_False by assumption. exact IHr.
Qed.

Lemma referred_names_own f refs :
  (forall r, r ∈ refs -> exists name rank, extract_rank r = Return (name, rank)) ->
  Forall2 refers_to refs (referred_names (map (pair f) refs) f).
Proof.
  induction refs as [|r refs IH]; intros Hall; [constructor|].
  unfold referred_names in *. cbn [map flat_map].
  rewrite decide_True by reflexivity.
  destruct (Hall r) as (name & rank & Hr); [left|]. rewrite Hr.
  constructor; [now exists rank|]. apply IH. intros r' Hr'. apply Hall. now right.
Qed.

End builder_result_more.

(** X1: when the builder returns, the successors it recorded for an action
    are the base names of the references that the action owns, in the
    order of the workflow definition and with repetitions; so the edges of
    the adjacency graph are exactly the edges written in the definition. *)
Theorem build_graph_edges (p : payload) (adj : graph) (ranks : rank_table) :
  build_adjacency_graph p = Return (adj, ranks) ->
  (forall f, successors adj f = referred_names (edge_refs p) f) /\
  (forall u v, edge adj u v <-> payload_edge p u v) /\
  (payload_wf p ->
   forall f act, (f, act) ∈ ActionList p ->
     Forall2 refers_to (references (InvokeNext act)) (successors adj f)).
Proof.
  intros (ranks0 & Hrun & _)%build_adjacency_graph_Return.
  assert (forall f, successors adj f = referred_names (edge_refs p) f) as Hsucc.
  { intros f. now rewrite (process_edges_successors _ _ _ _ _ f Hrun). }
  split; [assumption|]. split.
  - intros u v. unfold edge. rewrite Hsucc, referred_names_elem. split.
    + intros (reference & (act & Ha & Hr)%edge_refs_elem & Hv).
      now exists act, reference.
    + intros (act & reference & Ha & Hr & Hv). exists reference.
      split; [|assumption]. apply edge_refs_elem. now exists act.
  - intros Hwf f act Hin. rewrite Hsucc. unfold edge_refs.
    rewrite (referred_names_owner _ f act Hwf Hin).
    apply referred_names_own. intros r Hr.
    apply (process_edges_parses _ _ _ _ _ f r Hrun).
    apply edge_refs_elem. now exists act.
Qed.

Lemma build_graph_edges_witness :
  successors [("A", ["B"; "C"]); ("B", ["D"]); ("C", ["D"])] "A" =
    referred_names (edge_refs wf_fanout) "A".
Proof.
  refine (proj1 (build_graph_edges wf_fanout
                   [("A", ["B"; "C"]); ("B", ["D"]); ("C", ["D"])]
                   [("B", 2%Z); ("C", 2%Z); ("D", 1%Z); ("A", 0%Z)] _) "A").
  vm_compute. reflexivity.
Defined.

(** X2: the rank table that the builder returns.  A name has the rank [r]
    exactly when the last reference to it declares [r], or when [r] is 0
    and the name is an action that owns a reference and that no reference
    names.  Every other name has no entry. *)
Theorem build_rank_table (p : payload) (adj : graph) (ranks : rank_table) :
  build_adjacency_graph p = Return (adj, ranks) ->
  forall k r,
    dict_get k ranks = Some r <->
    last_rank (edge_refs p) k r \/
    (r = 0%Z /\ ~ referred p k /\ owns_reference p k).
Proof.
  intros Hb k r.
  pose proof Hb as (ranks0 & Hrun & Hranks)%build_adjacency_graph_Return.
  split.
  - subst ranks. rewrite default_ranks_get.
    destruct (dict_get k ranks0) as [r0|] eqn:E.
    + intros [= <-]. left.
      destruct (process_edges_rank_origin _ _ _ _ _ _ _ Hrun E) as [[H _]|H];
        [discriminate|assumption].
    + case_decide as Hk; [|discriminate]. intros [= <-]. right.
      split; [reflexivity|]. split.
      * intros (g & reference & Hin & Href).
        assert (is_Some (dict_get k ranks0)) as [? ?]; [|congruence].
        apply (process_edges_ranked _ _ _ _ _ _ Hrun). right. now exists g, reference.
      * destruct (process_edges_graph_keys _ _ _ _ _ _ Hrun Hk) as [H|H];
          [now apply elem_of_nil in H|exact H].
  - intros [(es1 & func & reference & es2 & Hes & Hr & Hlast)|(-> & Hno & ref & Hown)].
    + exact (proj1 (build_last_reference _ _ _ _ _ _ _ _ _ Hb Hes Hr Hlast)).
    + subst ranks. rewrite default_ranks_get.
      assert (dict_get k ranks0 = None) as ->.
      { apply dict_get_None. intros Hk.
        destruct (process_edges_rank_keys _ _ _ _ _ _ Hrun Hk) as [H|H];
          [now apply elem_of_nil in H|now apply Hno]. }
      rewrite decide_True; [reflexivity|].
      destruct (process_edges_parses _ _ _ _ _ _ _ Hrun Hown) as (name & rank & Hp).
      apply (successors_keys adj k name).
      rewrite (process_edges_successors _ _ _ _ _ k Hrun).
      apply referred_names_elem. exists ref. split; [assumption|now exists rank].
Qed.

Lemma build_rank_table_witness :
  dict_get "A" [("B", 2%Z); ("C", 2%Z); ("D", 1%Z); ("A", 0%Z)] = Some 0%Z <->
  last_rank (edge_refs wf_fanout) "A" 0 \/
  (0%Z = 0%Z /\ ~ referred wf_fanout "A" /\ owns_reference wf_fanout "A").
Proof.
  apply (build_rank_table wf_fanout [("A", ["B"; "C"]); ("B", ["D"]); ("C", ["D"])]).
  vm_compute. reflexivity.
Defined.

(** X3: the invariant that the guard of [process_action] does keep: when
    the builder returns, a reference that declares a rank above 1 is the
    last reference to its name. *)
Theorem build_ranked_reference_last (p : payload) (adj : graph)
    (ranks : rank_table) (es1 es2 : list (string * string))
    (func reference name : string) (rank : Z) :
  build_adjacency_graph p = Return (adj, ranks) ->
  edge_refs p = es1 ++ (func, reference) :: es2 ->
  extract_rank reference = Return (name, rank) -> (1 < rank)%Z ->
  forall g reference', (g, reference') ∈ es2 -> ~ refers_to reference' name.
Proof.
  intros (ranks0 & Hrun & _)%build_adjacency_graph_Return Hes Hp Hlt g ref Hin Href.
  rewrite Hes, process_edges_app in Hrun.
  destruct (process_edges es1 ([], [])) as [[adj1 ranks1]|]; simpl in Hrun;
    [|discriminate].
  rewrite process_edges_cons in Hrun.
  destruct (process_action func reference (adj1, ranks1)) as [[adj2 ranks2]|] eqn:E;
    simpl in Hrun; [|discriminate].
  apply process_action_Return in E as (name' & rank' & Hp' & _ & -> & ->).
  rewrite Hp in Hp'. injection Hp' as <- <-.
  eapply (process_edges_ranked_stops es2); [|exact Hlt|exact Hin|exact Href|exact Hrun].
  apply dict_get_set_eq.
Qed.

Lemma build_ranked_reference_last_witness :
  ("B", "D") ∈ [("B", "D"); ("C", "D")] /\ ~ refers_to "D" "C".
Proof.
  split; [compute_done|].
  apply (build_ranked_reference_last wf_fanout
           [("A", ["B"; "C"]); ("B", ["D"]); ("C", ["D"])]
           [("B", 2%Z); ("C", 2%Z); ("D", 1%Z); ("A", 0%Z)]
           [("A", "B(2)")] [("B", "D"); ("C", "D")] "A" "C(2)" "C" 2%Z
           eq_refl eq_refl eq_refl eq_refl "B" "D").
  compute_done.
Defined.

(** X4: the builder stops only in two ways.  It raises the [ValueError]
    of a reference of the workflow whose parentheses [int] rejects, or it
    fails with [AmbiguousRankedPredecessor] at a reference whose name an
    earlier reference declared with a rank above 1. *)
Theorem build_errors (p : payload) (e : error) :
  build_adjacency_graph p = Raise e ->
  (exists literal func reference,
     e = ValueError literal /\ (func, reference) ∈ edge_refs p /\
     extract_rank reference = Raise (ValueError literal)) \/
  (e = AmbiguousRankedPredecessor /\
   exists es1 f1 r1 es2 f2 r2 es3 name rank,
     edge_refs p = es1 ++ (f1, r1) :: es2 ++ (f2, r2) :: es3 /\
     extract_rank r1 = Return (name, rank) /\ (1 < rank)%Z /\
     refers_to r2 name).
Proof.
  rewrite build_adjacency_graph_edges.
  destruct (process_edges (edge_refs p) ([], [])) as [[adj ranks]|e0] eqn:Hrun;
    simpl; [discriminate|]. intros [= ->].
  apply process_edges_Raise in Hrun
    as (es & func & reference & es3 & adj1 & ranks1 & Hes & Hpre & Hwhy).
  destruct Hwhy as [(literal & -> & Hp)|(-> & name & rank & r & Hp & Hr & Hlt)].
  - left. exists literal, func, reference. split; [reflexivity|].
    split; [|assumption]. rewrite Hes. apply elem_of_app. right. left.
  - right. split; [reflexivity|].
    destruct (process_edges_rank_origin _ _ _ _ _ _ _ Hpre Hr)
      as [[H _]|(es1 & f1 & r1 & es2 & -> & Hr1 & _)]; [discriminate|].
    exists es1, f1, r1, es2, func, reference, es3, name, r.
    split; [now rewrite Hes, <- app_assoc|]. split; [assumption|].
    split; [assumption|now exists rank].
Qed.

Lemma build_errors_witness :
  (exists literal func reference,
     AmbiguousRankedPredecessor = ValueError literal /\
     (func, reference) ∈ edge_refs wf_ambiguous /\
     extract_rank reference = Raise (ValueError literal)) \/
  (AmbiguousRankedPredecessor = AmbiguousRankedPredecessor /\
   exists es1 f1 r1 es2 f2 r2 es3 name rank,
     edge_refs wf_ambiguous = es1 ++ (f1, r1) :: es2 ++ (f2, r2) :: es3 /\
     extract_rank r1 = Return (name, rank) /\ (1 < rank)%Z /\
     refers_to r2 name).
Proof.
  apply (build_errors wf_ambiguous AmbiguousRankedPredecessor).
  vm_compute. reflexivity.
Defined.

(** ** The predecessor map is the inverse of the graph *)

Section inverse.
Implicit Types (adj : graph) (u v : string).

Lemma successors_predecessors_list adj v :
  successors (predecessors_list adj) v = predecessors adj v.
Proof. unfold predecessors_list. now rewrite predecessors_outer. Qed.

Lemma occurrences_app x (l1 l2 : list string) :
  occurrences x (l1 ++ l2) = occurrences x l1 + occurrences x l2.
Proof. unfold occurrences. now rewrite filter_app, length_app. Qed.

Lemma occurrences_none x (l : list string) : x ∉ l -> occurrences x l = 0.
Proof.
  unfold occurrences. induction l as [|y l IH]; intros H; [reflexivity|].
  apply not_elem_of_cons in H as [Hne H].
  rewrite filter_cons_False by congruence. now apply IH.
Qed.

Lemma occurrences_pos x (l : list string) : x ∈ l <-> 0 < occurrences x l.
Proof.
  split.
  - intros H. unfold occurrences.
    assert (x ∈ filter (fun y => y = x) l) as Hf by now apply list_elem_of_filter.
    destruct (filter (fun y => y = x) l); [now apply elem_of_nil in Hf|simpl; lia].
  - intros H. destruct (decide (x ∈ l)) as [|Hn]; [assumption|].
    rewrite (occurrences_none _ _ Hn) in H. lia.
Qed.

Lemma predecessors_keys adj u v : u ∈ predecessors adj v -> u ∈ dict_keys adj.
Proof.
  unfold predecessors. rewrite list_elem_of_In, in_flat_map.
  intros ([k l] & Hin & Hu). apply in_flat_map in Hu as (x & _ & Hu).
  destruct (decide (x = v)); [|destruct Hu]. destruct Hu as [<-|[]].
  apply list_elem_of_fmap. exists (k, l). split; [reflexivity|now apply list_elem_of_In].
Qed.

Lemma occurrences_inner k u v (l : list string) :
  occurrences u (flat_map (fun x => if decide (x = v) then [k] else []) l) =
    if decide (u = k) then occurrences v l else 0.
Proof.
  induction l as [|x l IH]; [now destruct (decide (u = k))|].
  cbn [flat_map]. rewrite occurrences_app, IH.
  change (x :: l) with ([x] ++ l). rewrite (occurrences_app v [x] l).
  unfold occurrences at 1 3.
  destruct (decide (x = v)) as [->|Hx].
  - destruct (decide (u = k)) as [->|Hu].
    + now rewrite !filter_cons_True.
    + rewrite filter_cons_False by congruence. reflexivity.
  - destruct (decide (u = k)); [|reflexivity].
    rewrite filter_cons_False by assumption. reflexivity.
Qed.

(** An action is listed among the predecessors of [v] as often as [v] is
    listed among its successors. *)
Lemma occurrences_predecessors adj u v :
  NoDup (dict_keys adj) ->
  occurrences u (predecessors adj v) = occurrences v (successors adj u).
Proof.
  induction adj as [|[k l] adj IH]; intros Hnd; [reflexivity|].
  cbn [dict_keys fmap list_fmap] in Hnd. apply NoDup_cons in Hnd as [Hk Hnd].
  unfold predecessors. cbn [flat_map]. fold (predecessors adj v).
  rewrite occurrences_app, occurrences_inner.
  unfold successors at 1. cbn [dict_get].
  destruct (decide (u = k)) as [->|Hne].
  - rewrite (occurrences_none k (predecessors adj v)); [now rewrite Nat.add_0_r|].
    intros H%predecessors_keys. contradiction.
  - fold (successors adj u). now rewrite IH.
Qed.

Lemma predecessors_list_NoDup adj : NoDup (dict_keys (predecessors_list adj)).
Proof.
  unfold predecessors_list.
  assert (NoDup (dict_keys (@nil (string * list string)))) as H0 by constructor.
  revert H0. generalize (@nil (string * list string)) as pre.
  induction adj as [|[k l] adj IH]; intros pre Hpre; [assumption|].
  cbn [fold_left]. apply IH. clear IH. revert pre Hpre.
  induction l as [|x l IHl]; intros pre Hpre; [assumption|].
  cbn [fold_left]. apply IHl. now apply defaultdict_append_NoDup.
Qed.

End inverse.

(** X5: [predecessors_list] inverts the graph.  For a graph with distinct
    keys, [u] is listed under [v] in the predecessor map as many times as
    [v] is listed among the successors of [u]; in particular the edges are
    reversed, and inverting twice gives back the edges of the graph. *)
Theorem predecessors_list_inverse (adj : graph) :
  NoDup (dict_keys adj) ->
  (forall u v, occurrences u (successors (predecessors_list adj) v) =
               occurrences v (successors adj u)) /\
  (forall u v, edge (predecessors_list adj) v u <-> edge adj u v) /\
  (forall u v, edge (predecessors_list (predecessors_list adj)) u v <->
               edge adj u v).
Proof.
  intros Hnd.
  assert (forall (g : graph), NoDup (dict_keys g) ->
            forall u v, occurrences u (successors (predecessors_list g) v) =
                        occurrences v (successors g u)) as Hocc.
  { intros g Hg u v. rewrite successors_predecessors_list.
    now apply occurrences_predecessors. }
  assert (forall (g : graph), NoDup (dict_keys g) ->
            forall u v, edge (predecessors_list g) v u <-> edge g u v) as Hedge.
  { intros g Hg u v. unfold edge. now rewrite !occurrences_pos, Hocc. }
  split; [now apply Hocc|]. split; [now apply Hedge|].
  intros u v. rewrite Hedge by apply predecessors_list_NoDup. now apply Hedge.
Qed.

Lemma predecessors_list_inverse_witness :
  edge (predecessors_list [("A", ["B"; "C"]); ("B", ["D"]); ("C", ["D"])])
       "D" "C" <->
  edge [("A", ["B"; "C"]); ("B", ["D"]); ("C", ["D"])] "C" "D".
Proof.
  refine (proj1 (proj2 (predecessors_list_inverse
                          [("A", ["B"; "C"]); ("B", ["D"]); ("C", ["D"])] _))
                "C" "D").
  compute_done.
Defined.

(** X6: what [is_cyclic] leaves behind when [check_dag] calls it and it
    returns.  It returns [False] (its [return True] is not reached), the
    stack is empty again, the visited set holds exactly the names that are
    reachable from the root, and the graph has changed only by keys without
    successors: every name has the successors and the predecessors it had,
    and the keys are still distinct. *)
Theorem traverse_result (adj : graph) (root : string) (b : bool)
    (adj' : graph) (visited : gset string) (stack : list string) :
  traverse adj root = Some (Return (b, (adj', visited, stack))) ->
  b = false /\ stack = [] /\
  (forall x, x ∈ visited <-> reachable adj root x) /\
  (forall x, successors adj' x = successors adj x) /\
  (forall x, predecessors adj' x = predecessors adj x) /\
  (forall x, x ∈ dict_keys adj -> x ∈ dict_keys adj') /\
  (NoDup (dict_keys adj) -> NoDup (dict_keys adj')).
Proof.
  intros Htr. pose proof (traverse_spec adj root) as Hs. rewrite Htr in Hs.
  destruct Hs as (-> & -> & Hext & Hvis & _).
  split; [reflexivity|]. split; [reflexivity|]. split; [assumption|].
  split; [intros x; now apply extends_successors|].
  split; [intros x; now apply extends_predecessors|]. split.
  - intros x Hx. destruct Hext as [ks ->]. unfold dict_keys.
    rewrite fmap_app. apply elem_of_app. now left.
  - intros Hnd. unfold traverse in Htr. eapply is_cyclic_NoDup; eassumption.
Qed.

Lemma traverse_result_witness :
  "B" ∈ ({[ "A"; "B" ]} : gset string) <-> reachable [("A", ["B"])] "A" "B".
Proof.
  refine (proj1 (proj2 (proj2 (traverse_result [("A", ["B"])] "A" false
                                 [("A", ["B"]); ("B", [])] {[ "A"; "B" ]} [] _)))
                "B").
  vm_compute. reflexivity.
Defined.

(** ** Reading a result of [check_dag] backwards *)

Section check_dag_inversion.
Implicit Types (p : payload) (adj : graph) (ranks : rank_table).

Lemma find_first_func_Raise funcs ranks e :
  find_first_func funcs ranks = Raise e ->
  exists l1 k l2,
    funcs = l1 ++ k :: l2 /\ e = KeyError k /\ dict_get k ranks = None /\
    forall g, g ∈ l1 -> exists z, dict_get g ranks = Some z /\ z <> 0%Z.
Proof.
  induction funcs as [|f funcs IH]; cbn [find_first_func]; [discriminate|].
  destruct (dict_get f ranks) as [z|] eqn:E.
  - case_bool_decide as Hz; [discriminate|].
    intros (l1 & k & l2 & -> & -> & Hk & Hbefore)%IH.
    exists (f :: l1), k, l2. repeat split; [assumption|].
    intros g [->|Hg]%elem_of_cons; [now exists z|auto].
  - intros [= <-]. exists [], f, funcs. repeat split; [assumption|].
    intros g Hg. now apply elem_of_nil in Hg.
Qed.

Lemma find_first_func_Return_None funcs ranks :
  find_first_func funcs ranks = Return None ->
  forall f, f ∈ funcs -> exists z, dict_get f ranks = Some z /\ z <> 0%Z.
Proof.
  induction funcs as [|f funcs IH]; cbn [find_first_func].
  - intros _ g Hg. now apply elem_of_nil in Hg.
  - destruct (dict_get f ranks) as [z|] eqn:E; [|discriminate].
    case_bool_decide as Hz; [discriminate|].
    intros H g [->|Hg]%elem_of_cons; [now exists z|auto].
Qed.

Lemma find_first_func_Return_Some funcs ranks root :
  find_first_func funcs ranks = Return (Some root) ->
  exists l1 l2,
    funcs = l1 ++ root :: l2 /\ dict_get root ranks = Some 0%Z /\
    forall g, g ∈ l1 -> exists z, dict_get g ranks = Some z /\ z <> 0%Z.
Proof.
  induction funcs as [|f funcs IH]; cbn [find_first_func]; [discriminate|].
  destruct (dict_get f ranks) as [z|] eqn:E; [|discriminate].
  case_bool_decide as Hz.
  - intros [= <-]. subst z. exists [], funcs. repeat split; [assumption|].
    intros g Hg. now apply elem_of_nil in Hg.
  - intros (l1 & l2 & -> & Hr & Hbefore)%IH.
    exists (f :: l1), l2. repeat split; [assumption|].
    intros g [->|Hg]%elem_of_cons; [now exists z|auto].
Qed.

Lemma check_visited_Raise funcs (visited : gset string) e :
  check_visited funcs visited = Raise e ->
  exists f, e = UnreachableAction f /\
            first_such (fun g => dot_prefix g ∉ visited) funcs f.
Proof.
  unfold check_visited. induction funcs as [|f funcs IH]; cbn [for_each];
    [discriminate|].
  case_bool_decide as Hf; simpl.
  - intros [= <-]. exists f. split; [reflexivity|]. exists [], funcs.
    repeat split; [assumption|]. intros g Hg. now apply elem_of_nil in Hg.
  - intros (g & -> & l1 & l2 & -> & Hg & Hbefore)%IH. exists g.
    split; [reflexivity|]. exists (f :: l1), l2. repeat split; [assumption|].
    intros y [->|Hy]%elem_of_cons; auto.
Qed.

Lemma check_visited_Return funcs (visited : gset string) u :
  check_visited funcs visited = Return u ->
  forall f, f ∈ funcs -> dot_prefix f ∈ visited.
Proof.
  unfold check_visited. induction funcs as [|f funcs IH]; cbn [for_each].
  - intros _ g Hg. now apply elem_of_nil in Hg.
  - case_bool_decide as Hf; simpl; [discriminate|].
    intros H g [->|Hg]%elem_of_cons; [|auto].
    destruct (decide (dot_prefix f ∈ visited)); [assumption|contradiction].
Qed.

Lemma build_Raise_kind p e :
  build_adjacency_graph p = Raise e ->
  e = AmbiguousRankedPredecessor \/ exists literal, e = ValueError literal.
Proof.
  rewrite build_adjacency_graph_edges.
  destruct (process_edges (edge_refs p) ([], [])) as [[adj ranks]|e0] eqn:Hrun;
    simpl; [discriminate|]. intros [= ->].
  apply process_edges_Raise in Hrun
    as (es1 & func & reference & es2 & adj1 & ranks1 & _ & _ & Hwhy).
  destruct Hwhy as [(literal & -> & _)|(-> & _)]; eauto.
Qed.

(** The edges of the returned graph are written in the workflow. *)
Lemma build_edge_referred p adj ranks u v :
  build_adjacency_graph p = Return (adj, ranks) ->
  edge adj u v <->
  exists reference, (u, reference) ∈ edge_refs p /\ refers_to reference v.
Proof.
  intros (ranks0 & Hrun & _)%build_adjacency_graph_Return. unfold edge.
  rewrite (process_edges_successors _ _ _ _ _ u Hrun). apply referred_names_elem.
Qed.

(** The names without a rank after the build. *)
Lemma build_rank_None p adj ranks k :
  build_adjacency_graph p = Return (adj, ranks) ->
  dict_get k ranks = None -> ~ referred p k /\ ~ owns_reference p k.
Proof.
  intros Hb Hk.
  pose proof Hb as (ranks0 & Hrun & ->)%build_adjacency_graph_Return.
  rewrite default_ranks_get in Hk.
  destruct (dict_get k ranks0) eqn:E; [discriminate|].
  case_decide as Hkey; [discriminate|]. split.
  - intros (g & reference & Hin & Href).
    assert (is_Some (dict_get k ranks0)) as [? ?]; [|congruence].
    apply (process_edges_ranked _ _ _ _ _ _ Hrun). right. now exists g, reference.
  - intros [reference Hown]. apply Hkey.
    destruct (process_edges_parses _ _ _ _ _ _ _ Hrun Hown) as (name & rank & Hp).
    apply (successors_keys adj k name).
    apply (build_edge_referred _ _ _ _ _ Hb). exists reference.
    split; [assumption|now exists rank].
Qed.

(** A rank other than 0 is the rank of a reference. *)
Lemma build_rank_nonzero p adj ranks k z :
  build_adjacency_graph p = Return (adj, ranks) ->
  dict_get k ranks = Some z -> z <> 0%Z -> referred p k.
Proof.
  intros (ranks0 & Hrun & ->)%build_adjacency_graph_Return Hk Hz.
  rewrite default_ranks_get in Hk.
  destruct (dict_get k ranks0) as [r|] eqn:E.
  - destruct (process_edges_rank_origin _ _ _ _ _ _ _ Hrun E)
      as [[H _]|(es1 & g & reference & es2 & Hes & Hr & _)]; [discriminate|].
    exists g, reference. split; [|now exists r].
    rewrite Hes. apply elem_of_app. right. left.
  - case_decide; [|discriminate]. injection Hk as <-. contradiction.
Qed.

(** The stages of [check_dag] behind a result. *)
Lemma check_dag_inv p res :
  check_dag p = Some res ->
  ((FunctionInvoke p ∉ dict_keys (ActionList p)) /\ res = Raise InvalidEntryPoint) \/
  (FunctionInvoke p ∈ dict_keys (ActionList p) /\
   ((exists e, build_adjacency_graph p = Raise e /\ res = Raise e) \/
    exists adj ranks,
      build_adjacency_graph p = Return (adj, ranks) /\
      ((exists e, find_first_func (dict_keys (ActionList p)) ranks = Raise e /\
                  res = Raise e) \/
       (find_first_func (dict_keys (ActionList p)) ranks = Return None /\
        res = Raise NoRoot) \/
       exists root,
         find_first_func (dict_keys (ActionList p)) ranks = Return (Some root) /\
         ((exists u v, res = Raise (CyclicGraph u v) /\ edge adj u v /\
                       reachable adj v u /\ reachable adj root u) \/
          ((forall x, reachable adj root x -> ~ on_cycle adj x) /\
           exists visited : gset string,
             (forall x, x ∈ visited <-> reachable adj root x) /\
             res = (_ ← check_visited (dict_keys (ActionList p)) visited;
                    Return (flat_map (expand ranks)
                                     (predecessors adj (FunctionInvoke p))))))))).
Proof.
  intros Hres.
  destruct (decide (FunctionInvoke p ∈ dict_keys (ActionList p))) as [Ht|Ht].
  2:{ left. split; [assumption|]. unfold check_dag in Hres.
      assert (dict_mem (FunctionInvoke p) (ActionList p) = false) as Hm.
      { apply not_true_iff_false. now rewrite dict_mem_true. }
      rewrite Hm in Hres. simpl in Hres. now injection Hres. }
  right. split; [assumption|].
  destruct (build_adjacency_graph p) as [[adj ranks]|e] eqn:Hb.
  2:{ left. exists e. split; [reflexivity|]. unfold check_dag in Hres.
      apply dict_mem_true in Ht. rewrite Ht, Hb in Hres. simpl in Hres.
      now injection Hres. }
  right. exists adj, ranks. split; [reflexivity|].
  destruct (find_first_func (dict_keys (ActionList p)) ranks) as [[root|]|e] eqn:Hf.
  - right. right. exists root. split; [reflexivity|].
    pose proof (traverse_spec adj root) as Hs.
    destruct (traverse adj root) as [[[b [[adj' V'] S']]|e]|] eqn:Htr;
      [| |contradiction].
    + right. rewrite (check_dag_traversed _ _ _ _ _ _ _ _ Ht Hb Hf Htr) in Hres.
      destruct Hs as (_ & _ & _ & Hvis & Hacyclic). split; [assumption|].
      exists V'. split; [assumption|]. now injection Hres.
    + left. rewrite (check_dag_selected _ _ _ _ Ht Hb Hf), Htr in Hres.
      destruct Hs as (u & v & -> & Huv & Hvu & Hru). exists u, v.
      split; [now injection Hres|]. auto.
  - right. left. split; [reflexivity|]. unfold check_dag in Hres.
    apply dict_mem_true in Ht. rewrite Ht, Hb, Hf in Hres. simpl in Hres.
    now injection Hres.
  - left. exists e. split; [reflexivity|]. unfold check_dag in Hres.
    apply dict_mem_true in Ht. rewrite Ht, Hb, Hf in Hres. simpl in Hres.
    now injection Hres.
Qed.

Lemma expand_nonempty ranks q : expand ranks q <> [].
Proof.
  unfold expand, rank_gt_1. destruct (dict_get q ranks) as [r|]; [|discriminate].
  case_bool_decide as Hr; [|discriminate]. simpl.
  destruct (Z.to_nat r) eqn:E; [lia|discriminate].
Qed.

End check_dag_inversion.

(** X7: validation reports [CyclicGraph u v] only for a real cycle: the
    target is declared, the builder returned a graph, a root of rank 0 was
    selected, and [u -> v] is an edge of that graph with [u] reachable
    from the root and [v] leading back to [u]. *)
Theorem check_dag_cyclic_sound (p : payload) (u v : string) :
  check_dag p = Some (Raise (CyclicGraph u v)) ->
  FunctionInvoke p ∈ dict_keys (ActionList p) /\
  exists adj ranks root,
    build_adjacency_graph p = Return (adj, ranks) /\
    find_first_func (dict_keys (ActionList p)) ranks = Return (Some root) /\
    dict_get root ranks = Some 0%Z /\
    edge adj u v /\ reachable adj v u /\ reachable adj root u /\ on_cycle adj u.
Proof.
  intros [[_ H]|[Ht H]]%check_dag_inv; [discriminate|]. split; [assumption|].
  destruct H as [(e & He & [= <-])|(adj & ranks & Hb & H)].
  { destruct (build_Raise_kind _ _ He) as [?|[? ?]]; discriminate. }
  exists adj, ranks.
  destruct H as [(e & He & [= <-])|[[_ ?]|(root & Hf & H)]]; [|discriminate|].
  { apply find_first_func_Raise in He as (? & ? & ? & _ & ? & _). discriminate. }
  exists root. split; [assumption|]. split; [assumption|].
  split; [now apply find_first_func_Return_Some in Hf as (? & ? & _ & ? & _)|].
  destruct H as [(u' & v' & [= <- <-] & Huv & Hvu & Hru)|(_ & V & _ & Hres)].
  - repeat split; try assumption.
    eapply tc_rtc_r; [apply tc_once, Huv|exact Hvu].
  - destruct (check_visited _ V) as [[]|e] eqn:Hc; simpl in Hres; [discriminate|].
    apply check_visited_Raise in Hc as (f & -> & _). discriminate.
Qed.

Lemma check_dag_cyclic_sound_witness :
  FunctionInvoke wf_loop ∈ dict_keys (ActionList wf_loop) /\
  exists adj ranks root,
    build_adjacency_graph wf_loop = Return (adj, ranks) /\
    find_first_func (dict_keys (ActionList wf_loop)) ranks = Return (Some root) /\
    dict_get root ranks = Some 0%Z /\
    edge adj "C" "B" /\ reachable adj "B" "C" /\ reachable adj root "C" /\
    on_cycle adj "C".
Proof.
  apply (check_dag_cyclic_sound wf_loop "C" "B").
  vm_compute. reflexivity.
Defined.

(** X8: validation reports [UnreachableAction f] only when the traversal
    found no cycle below the selected root and [f] is the first declared
    action whose name, up to its first dot, cannot be reached from the
    root along the edges of the graph. *)
Theorem check_dag_unreachable_sound (p : payload) (f : string) :
  check_dag p = Some (Raise (UnreachableAction f)) ->
  FunctionInvoke p ∈ dict_keys (ActionList p) /\
  exists adj ranks root,
    build_adjacency_graph p = Return (adj, ranks) /\
    find_first_func (dict_keys (ActionList p)) ranks = Return (Some root) /\
    (forall x, reachable adj root x -> ~ on_cycle adj x) /\
    first_such (fun g => ~ reachable adj root (dot_prefix g))
               (dict_keys (ActionList p)) f.
Proof.
  intros [[_ H]|[Ht H]]%check_dag_inv; [discriminate|]. split; [assumption|].
  destruct H as [(e & He & [= <-])|(adj & ranks & Hb & H)].
  { destruct (build_Raise_kind _ _ He) as [?|[? ?]]; discriminate. }
  exists adj, ranks.
  destruct H as [(e & He & [= <-])|[[_ ?]|(root & Hf & H)]]; [|discriminate|].
  { apply find_first_func_Raise in He as (? & ? & ? & _ & ? & _). discriminate. }
  exists root. split; [assumption|]. split; [assumption|].
  destruct H as [(u' & v' & ? & _)|(Hacyclic & V & Hvis & Hres)]; [discriminate|].
  split; [assumption|].
  destruct (check_visited _ V) as [[]|e] eqn:Hc; simpl in Hres; [discriminate|].
  apply check_visited_Raise in Hc as (g & -> & l1 & l2 & Hkeys & Hg & Hbefore).
  injection Hres as <-. exists l1, l2. split; [assumption|]. split.
  - now rewrite <- Hvis.
  - intros y Hy. rewrite <- Hvis. now apply Hbefore.
Qed.

Lemma check_dag_unreachable_sound_witness :
  FunctionInvoke wf_unreachable ∈ dict_keys (ActionList wf_unreachable) /\
  exists adj ranks root,
    build_adjacency_graph wf_unreachable = Return (adj, ranks) /\
    find_first_func (dict_keys (ActionList wf_unreachable)) ranks =
      Return (Some root) /\
    (forall x, reachable adj root x -> ~ on_cycle adj x) /\
    first_such (fun g => ~ reachable adj root (dot_prefix g))
               (dict_keys (ActionList wf_unreachable)) "C".
Proof.
  apply (check_dag_unreachable_sound wf_unreachable "C").
  vm_compute. reflexivity.
Defined.

(** X9: validation returns a list only for a valid workflow: the target is
    declared, the builder returned, the selected root has rank 0, no cycle
    is reachable from the root, the name of every declared action, up to
    its first dot, is reachable from it, and the list is the expansion of
    the predecessors of the target. *)
Theorem check_dag_success_sound (p : payload) (l : list string) :
  check_dag p = Some (Return l) ->
  FunctionInvoke p ∈ dict_keys (ActionList p) /\
  exists adj ranks root,
    build_adjacency_graph p = Return (adj, ranks) /\
    find_first_func (dict_keys (ActionList p)) ranks = Return (Some root) /\
    dict_get root ranks = Some 0%Z /\
    (forall x, reachable adj root x -> ~ on_cycle adj x) /\
    (forall f, f ∈ dict_keys (ActionList p) -> reachable adj root (dot_prefix f)) /\
    l = flat_map (expand ranks) (predecessors adj (FunctionInvoke p)).
Proof.
  intros [[_ H]|[Ht H]]%check_dag_inv; [discriminate|]. split; [assumption|].
  destruct H as [(e & He & ?)|(adj & ranks & Hb & H)]; [discriminate|].
  exists adj, ranks.
  destruct H as [(e & He & ?)|[[_ ?]|(root & Hf & H)]]; [discriminate|discriminate|].
  exists root. split; [assumption|]. split; [assumption|].
  split; [now apply find_first_func_Return_Some in Hf as (? & ? & _ & ? & _)|].
  destruct H as [(u' & v' & ? & _)|(Hacyclic & V & Hvis & Hres)]; [discriminate|].
  split; [assumption|].
  destruct (check_visited _ V) as [[]|e] eqn:Hc; simpl in Hres; [|discriminate].
  injection Hres as ->. split; [|reflexivity].
  intros f Hin. apply Hvis. eapply check_visited_Return; eassumption.
Qed.

Lemma check_dag_success_sound_witness :
  FunctionInvoke wf_fanout ∈ dict_keys (ActionList wf_fanout) /\
  exists adj ranks root,
    build_adjacency_graph wf_fanout = Return (adj, ranks) /\
    find_first_func (dict_keys (ActionList wf_fanout)) ranks = Return (Some root) /\
    dict_get root ranks = Some 0%Z /\
    (forall x, reachable adj root x -> ~ on_cycle adj x) /\
    (forall f, f ∈ dict_keys (ActionList wf_fanout) ->
               reachable adj root (dot_prefix f)) /\
    ["B.1"; "B.2"; "C.1"; "C.2"] =
      flat_map (expand ranks) (predecessors adj (FunctionInvoke wf_fanout)).
Proof.
  apply (check_dag_success_sound wf_fanout ["B.1"; "B.2"; "C.1"; "C.2"]).
  vm_compute. reflexivity.
Defined.

(** X10: validation ends with [KeyError k] only in root selection: [k] is
    a declared action that owns no reference and that no reference names,
    and every action declared before it has a rank other than 0. *)
Theorem check_dag_key_error_sound (p : payload) (k : string) :
  check_dag p = Some (Raise (KeyError k)) ->
  FunctionInvoke p ∈ dict_keys (ActionList p) /\
  exists adj ranks l1 l2,
    build_adjacency_graph p = Return (adj, ranks) /\
    dict_keys (ActionList p) = l1 ++ k :: l2 /\
    dict_get k ranks = None /\
    ~ referred p k /\ ~ owns_reference p k /\
    forall g, g ∈ l1 -> exists z, dict_get g ranks = Some z /\ z <> 0%Z.
Proof.
  intros [[_ H]|[Ht H]]%check_dag_inv; [discriminate|]. split; [assumption|].
  destruct H as [(e & He & [= <-])|(adj & ranks & Hb & H)].
  { destruct (build_Raise_kind _ _ He) as [?|[? ?]]; discriminate. }
  exists adj, ranks.
  destruct H as [(e & He & [= <-])|[[_ ?]|(root & Hf & H)]]; [|discriminate|].
  - apply find_first_func_Raise in He as (l1 & k' & l2 & Hkeys & [= <-] & Hk & Hbefore).
    exists l1, l2. split; [assumption|]. split; [assumption|].
    split; [assumption|].
    destruct (build_rank_None _ _ _ _ Hb Hk) as [Hr Ho]. auto.
  - destruct H as [(u' & v' & ? & _)|(_ & V & _ & Hres)]; [discriminate|].
    destruct (check_visited _ V) as [[]|e] eqn:Hc; simpl in Hres; [discriminate|].
    apply check_visited_Raise in Hc as (f & -> & _). discriminate.
Qed.

Lemma check_dag_key_error_sound_witness :
  FunctionInvoke wf_no_rank_first ∈ dict_keys (ActionList wf_no_rank_first) /\
  exists adj ranks l1 l2,
    build_adjacency_graph wf_no_rank_first = Return (adj, ranks) /\
    dict_keys (ActionList wf_no_rank_first) = l1 ++ "C" :: l2 /\
    dict_get "C" ranks = None /\
    ~ referred wf_no_rank_first "C" /\ ~ owns_reference wf_no_rank_first "C" /\
    forall g, g ∈ l1 -> exists z, dict_get g ranks = Some z /\ z <> 0%Z.
Proof.
  apply (check_dag_key_error_sound wf_no_rank_first "C").
  vm_compute. reflexivity.
Defined.

(** X11: validation fails with [NoRoot] exactly when the target is
    declared, the builder returns, and every declared action has a rank
    other than 0; every declared action is then named by some reference
    of the workflow. *)
Theorem check_dag_no_root_iff (p : payload) :
  (check_dag p = Some (Raise NoRoot) <->
   FunctionInvoke p ∈ dict_keys (ActionList p) /\
   exists adj ranks,
     build_adjacency_graph p = Return (adj, ranks) /\
     forall f, f ∈ dict_keys (ActionList p) ->
               exists z, dict_get f ranks = Some z /\ z <> 0%Z) /\
  (check_dag p = Some (Raise NoRoot) ->
   forall f, f ∈ dict_keys (ActionList p) -> referred p f).
Proof.
  assert (check_dag p = Some (Raise NoRoot) ->
          FunctionInvoke p ∈ dict_keys (ActionList p) /\
          exists adj ranks,
            build_adjacency_graph p = Return (adj, ranks) /\
            forall f, f ∈ dict_keys (ActionList p) ->
                      exists z, dict_get f ranks = Some z /\ z <> 0%Z) as Hinv.
  { intros [[_ H]|[Ht H]]%check_dag_inv; [discriminate|]. split; [assumption|].
    destruct H as [(e & He & [= <-])|(adj & ranks & Hb & H)].
    { destruct (build_Raise_kind _ _ He) as [?|[? ?]]; discriminate. }
    exists adj, ranks. split; [assumption|].
    destruct H as [(e & He & [= <-])|[[Hf _]|(root & Hf & H)]].
    - apply find_first_func_Raise in He as (? & ? & ? & _ & ? & _). discriminate.
    - now apply find_first_func_Return_None.
    - destruct H as [(u' & v' & ? & _)|(_ & V & _ & Hres)]; [discriminate|].
      destruct (check_visited _ V) as [[]|e] eqn:Hc; simpl in Hres; [discriminate|].
      apply check_visited_Raise in Hc as (f & -> & _). discriminate. }
  split; [split; [exact Hinv|]|].
  - intros (Ht & adj & ranks & Hb & Hall). now apply (check_dag_no_root p adj ranks).
  - intros (_ & adj & ranks & Hb & Hall)%Hinv f Hf.
    destruct (Hall f Hf) as (z & Hz & Hne).
    exact (build_rank_nonzero _ _ _ _ _ Hb Hz Hne).
Qed.

(** X12: the remark in [check_dag] on several actions without
    predecessors.  When a root has been selected and some declared action
    has a name that, up to its first dot, is not the root and is not named
    by any reference, validation does not succeed: it fails with
    [CyclicGraph] or with [UnreachableAction]. *)
Theorem check_dag_second_root (p : payload) (adj : graph) (ranks : rank_table)
    (root f : string) :
  FunctionInvoke p ∈ dict_keys (ActionList p) ->
  build_adjacency_graph p = Return (adj, ranks) ->
  find_first_func (dict_keys (ActionList p)) ranks = Return (Some root) ->
  f ∈ dict_keys (ActionList p) ->
  dot_prefix f <> root -> ~ referred p (dot_prefix f) ->
  (exists u v, check_dag p = Some (Raise (CyclicGraph u v))) \/
  (exists g, check_dag p = Some (Raise (UnreachableAction g))).
Proof.
  intros Ht Hb Hf Hin Hne Hno.
  assert (~ reachable adj root (dot_prefix f)) as Hunreach.
  { intros [Heq|(y & _ & Hedge)]%rtc_inv_r; [congruence|].
    apply (build_edge_referred _ _ _ _ _ Hb) in Hedge as (reference & Hr & Hn).
    apply Hno. now exists y, reference. }
  rewrite (check_dag_selected _ _ _ _ Ht Hb Hf).
  pose proof (traverse_spec adj root) as Hs.
  destruct (traverse adj root) as [[[b [[adj' V'] S']]|e]|] eqn:Htr;
    [| |contradiction].
  - right. destruct Hs as (_ & _ & _ & Hvis & _).
    assert (dot_prefix f ∉ V') as Hnot by now rewrite Hvis.
    destruct (first_such_exists (fun g => dot_prefix g ∉ V') _ f Hin Hnot)
      as [g Hg].
    exists g. now rewrite (check_visited_first _ _ _ Hg).
  - left. destruct Hs as (u & v & -> & _). now exists u, v.
Qed.

Lemma check_dag_second_root_witness :
  (exists u v, check_dag wf_unreachable = Some (Raise (CyclicGraph u v))) \/
  (exists g, check_dag wf_unreachable = Some (Raise (UnreachableAction g))).
Proof.
  apply (check_dag_second_root wf_unreachable [("A", ["B"])]
           [("B", 1%Z); ("A", 0%Z)] "A" "C").
  - compute_done.
  - vm_compute. reflexivity.
  - vm_compute. reflexivity.
  - compute_done.
  - vm_compute. discriminate.
  - intros (func & reference & Hin & rank & Hr).
    apply list_elem_of_In in Hin. simpl in Hin.
    destruct Hin as [[= <- <-]|[]]. vm_compute in Hr. discriminate.
Defined.

(** X13: when validation succeeds, the returned list is empty exactly
    when no reference of the workflow names the target, that is, when no
    edge of the graph leads into it. *)
Theorem check_dag_no_predecessor (p : payload) (adj : graph) (ranks : rank_table)
    (l : list string) :
  build_adjacency_graph p = Return (adj, ranks) ->
  check_dag p = Some (Return l) ->
  (l = [] <-> ~ referred p (FunctionInvoke p)) /\
  (l = [] <-> forall u, ~ edge adj u (FunctionInvoke p)).
Proof.
  intros Hb Hres.
  assert (l = flat_map (expand ranks) (predecessors adj (FunctionInvoke p))) as ->.
  { apply check_dag_inv in Hres as [[_ H]|[Ht H]]; [discriminate|].
    destruct H as [(e & He & ?)|(adj' & ranks' & Hb' & H)]; [discriminate|].
    rewrite Hb in Hb'. injection Hb' as <- <-.
    destruct H as [(e & He & ?)|[[_ ?]|(root & Hf & H)]];
      [discriminate|discriminate|].
    destruct H as [(u' & v' & ? & _)|(_ & V & _ & Hl)]; [discriminate|].
    destruct (check_visited _ V) as [[]|e]; simpl in Hl; [|discriminate].
    now injection Hl. }
  destruct (build_adjacency_graph_NoDup _ _ _ Hb) as [Hnd _].
  assert (forall u, u ∈ predecessors adj (FunctionInvoke p) <->
                    edge adj u (FunctionInvoke p)) as Hpre.
  { intros u. unfold edge.
    now rewrite !occurrences_pos, (occurrences_predecessors _ _ _ Hnd). }
  assert (flat_map (expand ranks) (predecessors adj (FunctionInvoke p)) = [] <->
          forall u, ~ edge adj u (FunctionInvoke p)) as Hempty.
  { split.
    - intros Hnil u Hu%Hpre.
      destruct (predecessors adj (FunctionInvoke p)) as [|q qs];
        [now apply elem_of_nil in Hu|].
      cbn [flat_map] in Hnil. apply app_eq_nil in Hnil as [Hq _].
      exact (expand_nonempty _ _ Hq).
    - intros Hall. destruct (predecessors adj (FunctionInvoke p)) as [|q qs] eqn:E;
        [reflexivity|].
      destruct (Hall q). apply Hpre. left. }
  split; [|exact Hempty].
  rewrite Hempty. split.
  - intros Hall (func & reference & Hin & Hr). apply (Hall func).
    apply (build_edge_referred _ _ _ _ _ Hb). now exists reference.
  - intros Hno u (reference & Hin & Hr)%(build_edge_referred _ _ _ _ _ Hb).
    apply Hno. now exists u, reference.
Qed.

Lemma check_dag_no_predecessor_witness :
  (["A"] = [] <-> ~ referred wf_chain (FunctionInvoke wf_chain)) /\
  (["A"] = [] <-> forall u, ~ edge [("A", ["B"])] u (FunctionInvoke wf_chain)).
Proof.
  apply (check_dag_no_predecessor wf_chain [("A", ["B"])]
           [("B", 1%Z); ("A", 0%Z)] ["A"]).
  - vm_compute. reflexivity.
  - vm_compute. reflexivity.
Defined.

(** ** Names and identifiers *)

Section names.

Lemma split_parts_count sep s part :
  part ∈ Py.split sep s -> Py.count sep part = 0.
Proof.
  revert part. induction s as [|c s IH]; intros part; cbn [Py.split].
  - intros ->%list_elem_of_singleton. reflexivity.
  - destruct (Ascii.eqb_spec c sep) as [->|Hne].
    + intros [->|H]%elem_of_cons; [reflexivity|auto].
    + destruct (Py.split sep s) as [|q qs] eqn:E.
      * now destruct (PyFacts.split_nonempty sep s).
      * intros [->|H]%elem_of_cons.
        -- cbn [Py.count]. destruct (Ascii.eqb_spec c sep); [contradiction|].
           apply IH. left.
        -- apply IH. now right.
Qed.

Lemma split_head_app sep a b :
  hd EmptyString (Py.split sep (a +:+ String sep b)) =
  hd EmptyString (Py.split sep a).
Proof.
  induction a as [|c a IH].
  - simpl. now rewrite Ascii.eqb_refl.
  - change (String c a +:+ String sep b) with (String c (a +:+ String sep b)).
    cbn [Py.split]. destruct (Ascii.eqb c sep); [reflexivity|].
    destruct (Py.split sep (a +:+ String sep b)) as [|q qs] eqn:E1;
      [now destruct (PyFacts.split_nonempty sep (a +:+ String sep b))|].
    destruct (Py.split sep a) as [|q' qs'] eqn:E2;
      [now destruct (PyFacts.split_nonempty sep a)|].
    simpl in *. now rewrite IH.
Qed.

End names.

(** X14: writing a rank after a name and parsing it back.  For every name
    without ["("] and every integer [z], [extract_rank] of [name(z)] is
    [(name, z)]. *)
Theorem extract_rank_round_trip (name : string) (z : Z) :
  Py.count "(" name = 0 ->
  extract_rank (ranked_reference name z) = Return (name, z).
Proof.
  intros Hname. unfold ranked_reference.
  rewrite extract_rank_parenthesised by (auto using PyIntFacts.count_str).
  now rewrite PyIntFacts.int_str.
Qed.

Lemma extract_rank_round_trip_witness :
  extract_rank (ranked_reference "func" 7) = Return ("func", 7%Z).
Proof. apply (extract_rank_round_trip "func" 7). reflexivity. Defined.

(** X15: a base name that [extract_rank] returns is a reference to itself
    with rank 1: parsing it again returns it unchanged. *)
Theorem extract_rank_base_name (s name : string) (rank : Z) :
  extract_rank s = Return (name, rank) ->
  extract_rank name = Return (name, 1%Z).
Proof.
  intros H. pose proof H as H'. unfold extract_rank in H.
  pose proof (split_parts_count "(" s) as Hparts.
  destruct (Py.split "(" s) as [|a [|b [|c l]]];
    try (injection H as <- <-; exact H').
  destruct (negb (Py.endswith b ")")); [injection H as <- <-; exact H'|].
  destruct (Py.int (Py.drop_last b)); [|discriminate].
  injection H as <- <-. apply extract_rank_other_count.
  rewrite (Hparts a); [discriminate|left].
Qed.

Lemma extract_rank_base_name_witness :
  extract_rank "func" = Return ("func", 1%Z).
Proof. apply (extract_rank_base_name "func(7)" "func" 7). reflexivity. Defined.

(** X16: the identifiers that stand for a ranked predecessor lead back to
    it under the test of the reachability check: every identifier of
    [expand ranks q] has the same part before its first dot as [q]. *)
Theorem expand_dot_prefix (ranks : rank_table) (q id : string) :
  id ∈ expand ranks q -> dot_prefix id = dot_prefix q.
Proof.
  unfold expand. destruct (rank_gt_1 q ranks).
  - intros (i & <- & _)%list_elem_of_In%in_map_iff. unfold dot_prefix.
    exact (split_head_app "." q (Py.str (Z.of_nat i))).
  - now intros ->%list_elem_of_singleton.
Qed.

Lemma expand_dot_prefix_witness : dot_prefix "B.2" = dot_prefix "B".
Proof.
  apply (expand_dot_prefix [("B", 2%Z)] "B" "B.2"). compute_done.
Defined.

(** ** The OpenWhisk server of a workflow *)

Section openwhisk.
Implicit Types (servers : list (string * list (string * string))).

(** The servers that the loop passes over. *)
Lemma find_openwhisk_app servers1 servers2 :
  (forall name config, (name, config) ∈ servers1 ->
     exists t, dict_get "FaaSType" config = Some t /\ str_lower t <> "openwhisk") ->
  find_openwhisk (servers1 ++ servers2) = find_openwhisk servers2.
Proof.
  induction servers1 as [|[name config] servers1 IH]; intros Hall; [reflexivity|].
  cbn [app find_openwhisk].
  destruct (Hall name config) as (t & -> & Ht); [left|].
  rewrite decide_False by assumption. apply IH.
  intros n c Hin. apply (Hall n c). now right.
Qed.

Lemma find_openwhisk_inv servers :
  (exists servers1 name config servers2 t,
     servers = servers1 ++ (name, config) :: servers2 /\
     (forall n c, (n, c) ∈ servers1 ->
        exists t', dict_get "FaaSType" c = Some t' /\ str_lower t' <> "openwhisk") /\
     (dict_get "FaaSType" config = None \/
      dict_get "FaaSType" config = Some t /\ str_lower t = "openwhisk")) \/
  (forall n c, (n, c) ∈ servers ->
     exists t', dict_get "FaaSType" c = Some t' /\ str_lower t' <> "openwhisk").
Proof.
  induction servers as [|[name config] servers IH].
  - right. intros n c H. now apply elem_of_nil in H.
  - destruct (dict_get "FaaSType" config) as [t|] eqn:E.
    + destruct (decide (str_lower t = "openwhisk")) as [Ht|Ht].
      * left. exists [], name, config, servers, t. split; [reflexivity|].
        split; [|now right]. intros n c H. now apply elem_of_nil in H.
      * destruct IH as [(s1 & n & c & s2 & t' & -> & Hbefore & Hc)|Hall].
        -- left. exists ((name, config) :: s1), n, c, s2, t'.
           split; [reflexivity|]. split; [|assumption].
           intros n' c' [[= -> ->]|H]%elem_of_cons; [now exists t|eauto].
        -- right. intros n' c' [[= -> ->]|H]%elem_of_cons; [now exists t|eauto].
    + left. exists [], name, config, servers, EmptyString. split; [reflexivity|].
      split; [|now left]. intros n c H. now apply elem_of_nil in H.
Qed.

End openwhisk.

(** X17: [get_openwhisk_credentials] uses the first server, in the order
    of [ComputeServers], whose [FaaSType] is ["openwhisk"] in any
    capitalisation; servers after it are not looked at.  It returns that
    server's [Endpoint] and [Namespace], and the flag is true exactly when
    its [SSL] is ["true"] in any capitalisation. *)
Theorem get_openwhisk_credentials_first (w : workflow_servers)
    (servers1 servers2 : list (string * list (string * string)))
    (name : string) (config : list (string * string))
    (faas_type endpoint namespace ssl : string) :
  ComputeServers w = Some (servers1 ++ (name, config) :: servers2) ->
  (forall n c, (n, c) ∈ servers1 ->
     exists t, dict_get "FaaSType" c = Some t /\ str_lower t <> "openwhisk") ->
  dict_get "FaaSType" config = Some faas_type ->
  str_lower faas_type = "openwhisk" ->
  dict_get "Endpoint" config = Some endpoint ->
  dict_get "Namespace" config = Some namespace ->
  dict_get "SSL" config = Some ssl ->
  get_openwhisk_credentials w =
    OwReturn endpoint namespace (bool_decide (str_lower ssl = "true")).
Proof.
  intros Hw Hbefore Ht Hlow He Hn Hs. unfold get_openwhisk_credentials.
  rewrite Hw, (find_openwhisk_app _ _ Hbefore). cbn [find_openwhisk].
  rewrite Ht, decide_True by assumption. now rewrite He, Hn, Hs.
Qed.

Lemma get_openwhisk_credentials_first_witness :
  get_openwhisk_credentials
    {| ComputeServers :=
         Some [("My_GitHub", [("FaaSType", "GitHubActions")]);
               ("My_OW", [("FaaSType", "OpenWhisk"); ("Endpoint", "host");
                          ("Namespace", "guest"); ("SSL", "False")]);
               ("Other_OW", [("FaaSType", "openwhisk")])] |} =
    OwReturn "host" "guest" (bool_decide (str_lower "False" = "true")).
Proof.
  apply (get_openwhisk_credentials_first _
           [("My_GitHub", [("FaaSType", "GitHubActions")])]
           [("Other_OW", [("FaaSType", "openwhisk")])]
           "My_OW" [("FaaSType", "OpenWhisk"); ("Endpoint", "host");
                    ("Namespace", "guest"); ("SSL", "False")]
           "OpenWhisk" "host" "guest" "False").
  - reflexivity.
  - intros n c [[= -> ->]|H]%elem_of_cons; [|now apply elem_of_nil in H].
    exists "GitHubActions". split; [reflexivity|]. vm_compute. discriminate.
  - reflexivity.
  - reflexivity.
  - reflexivity.
  - reflexivity.
  - reflexivity.
Defined.

(** X18: how [get_openwhisk_credentials] fails.  It exits exactly when
    [ComputeServers] is present and every server has a [FaaSType] other
    than ["openwhisk"]; and a server without a [FaaSType] that comes before
    every OpenWhisk server makes it raise [KeyError], even when an
    OpenWhisk server follows. *)
Theorem get_openwhisk_credentials_failure (w : workflow_servers) :
  (get_openwhisk_credentials w = OwExit <->
   exists servers,
     ComputeServers w = Some servers /\
     forall n c, (n, c) ∈ servers ->
       exists t, dict_get "FaaSType" c = Some t /\ str_lower t <> "openwhisk") /\
  (forall servers1 name config servers2,
     ComputeServers w = Some (servers1 ++ (name, config) :: servers2) ->
     (forall n c, (n, c) ∈ servers1 ->
        exists t, dict_get "FaaSType" c = Some t /\ str_lower t <> "openwhisk") ->
     dict_get "FaaSType" config = None ->
     get_openwhisk_credentials w = OwKeyError "FaaSType").
Proof.
  unfold get_openwhisk_credentials. split; [split|].
  - destruct (ComputeServers w) as [servers|]; [|discriminate].
    intros Hexit. exists servers. split; [reflexivity|].
    destruct (find_openwhisk_inv servers)
      as [(s1 & n & c & s2 & t & -> & Hbefore & Hc)|Hall]; [|assumption].
    rewrite (find_openwhisk_app _ _ Hbefore) in Hexit. cbn [find_openwhisk] in Hexit.
    destruct Hc as [Hc|[Hc Ht]]; rewrite Hc in Hexit; [discriminate|].
    rewrite decide_True in Hexit by assumption.
    destruct (dict_get "Endpoint" c); [|discriminate].
    destruct (dict_get "Namespace" c); [|discriminate].
    destruct (dict_get "SSL" c); discriminate.
  - intros (servers & -> & Hall).
    rewrite <- (app_nil_r servers). now rewrite (find_openwhisk_app _ _ Hall).
  - intros s1 name config s2 -> Hbefore Hnone.
    rewrite (find_openwhisk_app _ _ Hbefore). cbn [find_openwhisk]. now rewrite Hnone.
Qed.

Lemma get_openwhisk_credentials_failure_witness :
  get_openwhisk_credentials
    {| ComputeServers :=
         Some [("My_GitHub", [("Token", "t")]);
               ("My_OW", [("FaaSType", "OpenWhisk"); ("Endpoint", "host");
                          ("Namespace", "guest"); ("SSL", "True")])] |} =
    OwKeyError "FaaSType".
Proof.
  refine (proj2 (get_openwhisk_credentials_failure _)
                [] "My_GitHub" [("Token", "t")]
                [("My_OW", [("FaaSType", "OpenWhisk"); ("Endpoint", "host");
                            ("Namespace", "guest"); ("SSL", "True")])] _ _ _).
  - reflexivity.
  - intros n c H. now apply elem_of_nil in H.
  - reflexivity.
Defined.

Lemma check_dag_no_root_iff_witness : referred wf_two_cycle "A".
Proof.
  refine (proj2 (check_dag_no_root_iff wf_two_cycle) _ "A" _).
  - vm_compute. reflexivity.
  - compute_done.
Defined.

(** ** The order of the checks and what they depend on *)

(** X19: an error of the graph builder is the result of validation exactly
    when the target is declared: the target is checked first, and nothing
    after the builder reports [ValueError] or
    [AmbiguousRankedPredecessor]. *)
Theorem check_dag_build_error (p : payload) (e : error) :
  e = AmbiguousRankedPredecessor \/ (exists literal, e = ValueError literal) ->
  check_dag p = Some (Raise e) <->
  FunctionInvoke p ∈ dict_keys (ActionList p) /\
  build_adjacency_graph p = Raise e.
Proof.
  intros He. split.
  - intros [[_ H]|[Ht H]]%check_dag_inv.
    { injection H as ->. destruct He as [?|[? ?]]; discriminate. }
    split; [assumption|].
    destruct H as [(e' & Hb & [= <-])|(adj & ranks & Hb & H)]; [assumption|].
    exfalso.
    destruct H as [(e' & Hf & [= <-])|[[_ H]|(root & Hf & H)]].
    + apply find_first_func_Raise in Hf as (? & ? & ? & _ & -> & _).
      destruct He as [?|[? ?]]; discriminate.
    + injection H as ->. destruct He as [?|[? ?]]; discriminate.
    + destruct H as [(u & v & [= ->] & _)|(_ & V & _ & Hres)].
      * destruct He as [?|[? ?]]; discriminate.
      * destruct (check_visited _ V) as [[]|e'] eqn:Hc; simpl in Hres;
          [discriminate|].
        apply check_visited_Raise in Hc as (f & -> & _). injection Hres as ->.
        destruct He as [?|[? ?]]; discriminate.
  - intros [Ht Hb]. unfold check_dag. apply dict_mem_true in Ht.
    now rewrite Ht, Hb.
Qed.

Lemma check_dag_build_error_witness :
  check_dag wf_ambiguous = Some (Raise AmbiguousRankedPredecessor) <->
  FunctionInvoke wf_ambiguous ∈ dict_keys (ActionList wf_ambiguous) /\
  build_adjacency_graph wf_ambiguous = Raise AmbiguousRankedPredecessor.
Proof.
  apply (check_dag_build_error wf_ambiguous AmbiguousRankedPredecessor).
  now left.
Defined.

Section dependence.
Implicit Types (p : payload).

Lemma dict_mem_keys {V W} (d : list (string * V)) (d' : list (string * W)) k :
  dict_keys d = dict_keys d' -> dict_mem k d = dict_mem k d'.
Proof.
  intros H. destruct (dict_mem k d') eqn:E.
  - apply dict_mem_true. rewrite H. now apply dict_mem_true.
  - apply not_true_iff_false. rewrite dict_mem_true, H, <- dict_mem_true.
    congruence.
Qed.

Lemma edge_refs_references p p' :
  map (fun '(func, act) => (func, references (InvokeNext act))) (ActionList p) =
  map (fun '(func, act) => (func, references (InvokeNext act))) (ActionList p') ->
  edge_refs p = edge_refs p' /\
  dict_keys (ActionList p) = dict_keys (ActionList p').
Proof.
  unfold edge_refs, dict_keys.
  generalize (ActionList p') as l'. induction (ActionList p) as [|[f a] l IH];
    intros [|[f' a'] l'] H; try discriminate; [now split|].
  injection H as -> Hr Hl. destruct (IH _ Hl) as [H1 H2].
  cbn [flat_map]. rewrite Hr, H1. split; [reflexivity|].
  change ((f', a) :: l).*1 with (f' :: l.*1).
  change ((f', a') :: l').*1 with (f' :: l'.*1). now rewrite H2.
Qed.

End dependence.

(** X20: validation reads of each action only the sequence of its
    references: two workflows that declare the same actions in the same
    order, with the same references once conditional branches are
    flattened and a single string is read as a list of one, and that ask
    for the same target, get the same result. *)
Theorem check_dag_flattening (p p' : payload) :
  map (fun '(func, act) => (func, references (InvokeNext act))) (ActionList p) =
  map (fun '(func, act) => (func, references (InvokeNext act))) (ActionList p') ->
  FunctionInvoke p = FunctionInvoke p' ->
  check_dag p = check_dag p'.
Proof.
  intros [Hes Hkeys]%edge_refs_references Ht. unfold check_dag.
  rewrite !build_adjacency_graph_edges, Hes, Hkeys, Ht.
  now rewrite (dict_mem_keys (ActionList p) (ActionList p') _ Hkeys).
Qed.

Lemma check_dag_flattening_witness :
  check_dag wf_conditional =
  check_dag {| ActionList := [("A", invoking (NextList [Ref "B"; Ref "C"]));
                              ("B", invoking (NextList []));
                              ("C", invoking (NextList []))];
               FunctionInvoke := "C" |}.
Proof.
  apply (check_dag_flattening wf_conditional
           {| ActionList := [("A", invoking (NextList [Ref "B"; Ref "C"]));
                             ("B", invoking (NextList []));
                             ("C", invoking (NextList []))];
              FunctionInvoke := "C" |}).
  - reflexivity.
  - reflexivity.
Defined.

(** X21: which error validation reports does not depend on the target,
    as long as the target is declared: if validation of a workflow fails
    for one declared target, it fails with the same error for every other
    declared target. *)
Theorem check_dag_error_any_target (p : payload) (e : error) (target : string) :
  FunctionInvoke p ∈ dict_keys (ActionList p) ->
  target ∈ dict_keys (ActionList p) ->
  check_dag p = Some (Raise e) ->
  check_dag {| ActionList := ActionList p; FunctionInvoke := target |} =
    Some (Raise e).
Proof.
  intros Ht Ht' Hres. unfold check_dag in *. cbn [ActionList FunctionInvoke].
  change (build_adjacency_graph
            {| ActionList := ActionList p; FunctionInvoke := target |})
    with (build_adjacency_graph p).
  apply dict_mem_true in Ht. apply dict_mem_true in Ht'.
  rewrite Ht in Hres. rewrite Ht'. simpl in *.
  destruct (build_adjacency_graph p) as [[adj ranks]|]; [|assumption].
  destruct (find_first_func _ ranks) as [[root|]|]; try assumption.
  destruct (traverse adj root) as [[[b [[adj' V'] S']]|]|]; try assumption.
  destruct (check_visited _ V'); simpl in *; [discriminate|assumption].
Qed.

Lemma check_dag_error_any_target_witness :
  check_dag {| ActionList := ActionList wf_unreachable; FunctionInvoke := "C" |} =
    Some (Raise (UnreachableAction "C")).
Proof.
  apply (check_dag_error_any_target wf_unreachable (UnreachableAction "C") "C").
  - compute_done.
  - compute_done.
  - vm_compute. reflexivity.
Defined.

(** X22: the depth of the recursion of [is_cyclic].  The stack holds no
    name twice and only names of the graph, so a budget of one more than
    the number of names of the graph, the root included, is never used up:
    the traversal that [check_dag] starts always comes to a result. *)
Theorem traverse_depth (adj : graph) (root : string) :
  exists res,
    is_cyclic (S (length (root :: dict_keys adj ++ concat adj.*2))) root
              (adj, ∅, []) = Some res.
Proof.
  pose proof (traverse_spec adj root) as Hs. unfold traverse, recursion_budget,
    graph_names in Hs.
  destruct (is_cyclic _ root (adj, ∅, [])) as [res|]; [now exists res|contradiction].
Qed.

(** X23: the root-selection loop of [check_dag] ends in one of three ways.
    It selects [root] exactly when [root] is the first action of rank 0 and
    every action before it has a rank other than 0; it finds no root
    exactly when every action has a rank other than 0; and it raises
    [KeyError k] exactly when [k] is the first action without a rank and
    every action before it has a rank other than 0. *)
Theorem find_first_func_spec (funcs : list string) (ranks : rank_table) :
  (forall root,
     find_first_func funcs ranks = Return (Some root) <->
     exists l1 l2,
       funcs = l1 ++ root :: l2 /\ dict_get root ranks = Some 0%Z /\
       forall g, g ∈ l1 -> exists z, dict_get g ranks = Some z /\ z <> 0%Z) /\
  (find_first_func funcs ranks = Return None <->
   forall f, f ∈ funcs -> exists z, dict_get f ranks = Some z /\ z <> 0%Z) /\
  (forall k,
     find_first_func funcs ranks = Raise (KeyError k) <->
     exists l1 l2,
       funcs = l1 ++ k :: l2 /\ dict_get k ranks = None /\
       forall g, g ∈ l1 -> exists z, dict_get g ranks = Some z /\ z <> 0%Z).
Proof.
  split; [|split].
  - intros root. split; [apply find_first_func_Return_Some|].
    intros (l1 & l2 & -> & Hr & Hbefore). now apply find_first_func_at.
  - split; [apply find_first_func_Return_None|apply find_first_func_None].
  - intros k. split.
    + intros (l1 & k' & l2 & -> & [= <-] & Hk & Hbefore)%find_first_func_Raise.
      now exists l1, l2.
    + intros (l1 & l2 & -> & Hk & Hbefore).
      induction l1 as [|g l1 IH]; cbn [app find_first_func].
      * now rewrite Hk.
      * destruct (Hbefore g) as (z & -> & Hz); [left|].
        rewrite bool_decide_false by assumption.
        apply IH. intros y Hy. apply Hbefore. now right.
Qed.
